(** * scene.org music discovery front end: the player controller and the
      browse navigator of [static/app.js]

    The script is embedded shallowly.  Its module-level [state] object, the
    DOM elements it writes, the shared [audio] element, the timer queue of the
    page and the requests that are still awaiting an answer are fields of one
    [World] record which every function threads explicitly.  An [async]
    function is cut at its single [await]: the part before it
    sends the request and parks a continuation, the part after it
    (suffix [_then]) runs when the answer arrives.

    Left out, because they neither read nor write anything modelled here:
    the status poller, the [timeupdate], [loadedmetadata] and seek-bar
    listeners (they only project the playback position through
    [formatTime]), and the [active] class of the scope buttons.  The rows
    of the browse list are kept as the objects they were rendered from. *)

From Stdlib Require Import ZArith QArith Qround List String Ascii Bool Lia Arith.
From Stdlib Require Import DecimalString.
Import ListNotations.

Local Open Scope string_scope.
Local Open Scope Z_scope.

(** ** JavaScript values used by the script *)

Module Js.

(** [ToInt32]: the signed 32-bit reading of an integral number. *)
Definition to_int32 (z : Z) : Z := (z + 2^31) mod 2^32 - 2^31.

(** [x << k] on numbers: both the operand and the result are int32. *)
Definition shl (x k : Z) : Z := to_int32 (Z.shiftl (to_int32 x) k).

(** [charCodeAt]: the code unit of a character. *)
Definition charCode (c : ascii) : Z := Z.of_N (N_of_ascii c).

Fixpoint charCodes (s : string) : list Z :=
  match s with
  | EmptyString => []
  | String c r => charCode c :: charCodes r
  end.

(** [Number.prototype.toString] on an integral value: its decimal form,
    which is what JavaScript prints for an integer below 2^53 in magnitude
    (from there on a number prints the shortest digits that identify the
    double, so the model stops being the code's output). *)
Definition toString (z : Z) : string := NilZero.string_of_int (Z.to_int z).

Fixpoint repeat_char (c : ascii) (n : nat) : string :=
  match n with
  | O => EmptyString
  | S k => String c (repeat_char c k)
  end.

(** [s.padStart(n, c)] with a one-character filler. *)
Definition padStart (n : nat) (c : ascii) (s : string) : string :=
  repeat_char c (n - String.length s) ++ s.

(** [toUpperCase] of one code unit below 256.  The result is given in code
    units, because it can leave that range: the micro sign becomes the
    Greek capital mu (U+039C), y with diaeresis becomes U+0178, and the
    sharp s becomes two letters.  The letters a-z and the Latin-1 letters
    224-254 (the division sign 247 apart) move down by 32; every other
    code unit stays. *)
Definition upper_units (n : Z) : list Z :=
  if (97 <=? n) && (n <=? 122) then [n - 32]
  else if n =? 181 then [924]
  else if n =? 223 then [83; 83]
  else if (224 <=? n) && (n <=? 254) && negb (n =? 247) then [n - 32]
  else if n =? 255 then [376]
  else [n].

Definition toUpperCase (s : string) : list Z :=
  flat_map upper_units (charCodes s).

(** Numbers as [formatTime] can receive them from the media element:
    [audio.duration] is [NaN] before the metadata is known and [Infinity]
    for an unbounded stream.  A finite number is kept as the rational it
    denotes, and arithmetic on it is exact.  The script's numbers are
    doubles: [%] and [Math.floor] are exact on them, and for a double
    below 2^53 in magnitude the rounded quotient [s / 60] has the floor of
    the exact one and that floor prints as its decimal form, so up to that
    bound the exact model gives what the script gives.  [safe] is that
    range, and the properties of [formatTime] are stated inside it. *)
Inductive num : Type :=
| NaN
| PosInf
| NegInf
| Fin (q : Q).

Inductive value : Type :=
| Undefined
| Num (x : num).

Definition safe (q : Q) : Prop := (- inject_Z (2^53) < q < inject_Z (2^53))%Q.

(** [!v]: [undefined], [NaN], [0] and [-0] are the falsy ones. *)
Definition falsy (v : value) : bool :=
  match v with
  | Undefined => true
  | Num NaN => true
  | Num (Fin q) => Qeq_bool q 0
  | Num _ => false
  end.

(** The global [isFinite], which first converts its argument to a number. *)
Definition isFinite (v : value) : bool :=
  match v with
  | Num (Fin _) => true
  | _ => false
  end.

(** Rounding toward zero, and the remainder [a % b], which takes the sign
    of the dividend. *)
Definition Qtrunc (x : Q) : Z :=
  if Qle_bool 0 x then Qfloor x else Qceiling x.

Definition rem (a b : Q) : Q := (a - b * inject_Z (Qtrunc (a / b)))%Q.

End Js.

(** ** Art placeholder colour *)

(** One turn of the loop in [setPlaceholderColor]:
    [hash = name.charCodeAt(i) + ((hash << 5) - hash)].  Only the shift is an
    int32 operation; the subtraction and the sum are number arithmetic. *)
Definition hash_step (hash c : Z) : Z := c + (Js.shl hash 5 - hash).

Definition hash_units (units : list Z) : Z := fold_left hash_step units 0.

Definition name_hash (name : string) : Z := hash_units (Js.charCodes name).

(** [Math.abs(hash) % 360]. *)
Definition hue_of (hash : Z) : Z := Z.rem (Z.abs hash) 360.

Definition placeholder_hue (name : string) : Z := hue_of (name_hash name).

(** The value assigned to [#artBox].style.background. *)
Definition gradient (hue : Z) : string :=
  "linear-gradient(135deg, hsl(" ++ Js.toString hue ++ ", 40%, 15%), hsl("
    ++ Js.toString (Z.rem (hue + 60) 360) ++ ", 30%, 10%))".

(** The same hash with every intermediate result reduced to 32 bits, as the
    specification words it: "32-bit integer hash arithmetic taken modulo
    2^32, absolute value, then modulo 360". *)
Module Spec32.
Definition hash_step (hash c : Z) : Z :=
  Js.to_int32 (c + (Js.shl hash 5 - hash)).
Definition hash_units (units : list Z) : Z := fold_left hash_step units 0.
Definition name_hash (name : string) : Z := hash_units (Js.charCodes name).
Definition placeholder_hue (name : string) : Z :=
  Z.rem (Z.abs (name_hash name)) 360.
End Spec32.

(** ** Seek bar clock *)

(** [formatTime], for [undefined], [NaN], the infinities and the finite
    numbers of the range [Js.safe]. *)
Definition formatTime (s : Js.value) : string :=
  if Js.falsy s || negb (Js.isFinite s) then "0:00"
  else
    match s with
    | Js.Num (Js.Fin q) =>
        let m := Qfloor (q / 60) in
        let sec := Qfloor (Js.rem q 60) in
        Js.toString m ++ ":" ++ Js.padStart 2 "0" (Js.toString sec)
    | _ => "0:00"
    end.


(** ** Data received from the service *)

Record Track : Type := mkTrack {
  t_id : Z;
  t_title : string;
  t_filename : string;
  t_format : string;
  t_upvoted : bool
}.

Record Collection : Type := mkCollection {
  c_id : Z;
  c_name : string;
  c_art_url : option string;
  c_track_count : Z
}.

Record Category : Type := mkCategory {
  cat_name : string;
  cat_collection_count : Z;
  cat_track_count : Z
}.

(** The answer of [/api/player/current], [/next] and [/prev]. *)
Record PlayerData : Type := mkPlayerData {
  d_track : option Track;
  d_collection : option Collection;
  d_category_name : string;
  d_has_prev : bool
}.

(** An entry of [state.browseStack]: [{type: 'category', name}] or
    [{type: 'collection', id, name}]. *)
Inductive Frame : Type :=
| FCategory (name : string)
| FCollection (id : Z) (name : string).

(** ** The [state] object *)

Record State : Type := mkState {
  track : option Track;
  collection : option Collection;
  categoryName : string;
  scope : string;
  isPlaying : bool;
  isLoading : bool;
  browseStack : list Frame   (* the top of the stack is the last element *)
}.

Definition set_track v (s : State) :=
  mkState v (collection s) (categoryName s) (scope s) (isPlaying s) (isLoading s) (browseStack s).
Definition set_collection v (s : State) :=
  mkState (track s) v (categoryName s) (scope s) (isPlaying s) (isLoading s) (browseStack s).
Definition set_categoryName v (s : State) :=
  mkState (track s) (collection s) v (scope s) (isPlaying s) (isLoading s) (browseStack s).
Definition set_scope v (s : State) :=
  mkState (track s) (collection s) (categoryName s) v (isPlaying s) (isLoading s) (browseStack s).
Definition set_isPlaying v (s : State) :=
  mkState (track s) (collection s) (categoryName s) (scope s) v (isLoading s) (browseStack s).
Definition set_isLoading v (s : State) :=
  mkState (track s) (collection s) (categoryName s) (scope s) (isPlaying s) v (browseStack s).
Definition set_browseStack v (s : State) :=
  mkState (track s) (collection s) (categoryName s) (scope s) (isPlaying s) (isLoading s) v.

(** ** The page *)

(** The elements the script reaches through [$('#...')]. *)
Inductive Elem : Type :=
| TrackTitle | CollectionName | Breadcrumb | PrevBtn
| ArtImg | ArtPlaceholder | ArtBox
| PlayBtn | LoadingSpinner | HeartBtn
| BrowseOverlay | BrowsePanel | BrowseTitle | BrowseBack
| BrowseSearchInput | BrowseList | Toast.

Definition Elem_eqb (a b : Elem) : bool :=
  match a, b with
  | TrackTitle, TrackTitle | CollectionName, CollectionName
  | Breadcrumb, Breadcrumb | PrevBtn, PrevBtn | ArtImg, ArtImg
  | ArtPlaceholder, ArtPlaceholder | ArtBox, ArtBox | PlayBtn, PlayBtn
  | LoadingSpinner, LoadingSpinner | HeartBtn, HeartBtn
  | BrowseOverlay, BrowseOverlay | BrowsePanel, BrowsePanel
  | BrowseTitle, BrowseTitle | BrowseBack, BrowseBack
  | BrowseSearchInput, BrowseSearchInput | BrowseList, BrowseList
  | Toast, Toast => true
  | _, _ => false
  end.

(** What an element contains after the script wrote its [textContent] or
    [innerHTML], or appended children to it. *)
Inductive Node : Type :=
| Text (s : string)
| Badge (fmt : list Z)                 (* span.format-badge, its text in code units *)
| ItemLoading                          (* the "Loading..." row *)
| ItemFailed                           (* the "Failed to load" row *)
| ItemNoCollections                    (* the "No collections found" row *)
| ItemCategory (cat : Category)
| ItemCollection (col : Collection)
| ItemTrack (t : Track).

Inductive StyleProp : Type := display | opacity | background.

Definition StyleProp_eqb (a b : StyleProp) : bool :=
  match a, b with
  | display, display | opacity, opacity | background, background => true
  | _, _ => false
  end.

Record Dom : Type := mkDom {
  content : Elem -> list Node;
  style : Elem -> StyleProp -> string;
  classList : Elem -> string -> bool;
  value : Elem -> string;               (* of an input element *)
  img_src : option Z;                   (* [/api/art/<id>] on #artImg *)
  img_onerror : option Collection       (* the collection the handler closes over *)
}.

Definition set_content (e : Elem) (v : list Node) (d : Dom) : Dom :=
  mkDom (fun x => if Elem_eqb e x then v else content d x)
        (style d) (classList d) (value d) (img_src d) (img_onerror d).
Definition set_style (e : Elem) (p : StyleProp) (v : string) (d : Dom) : Dom :=
  mkDom (content d)
        (fun x q => if Elem_eqb e x && StyleProp_eqb p q then v else style d x q)
        (classList d) (value d) (img_src d) (img_onerror d).
Definition set_class (e : Elem) (c : string) (v : bool) (d : Dom) : Dom :=
  mkDom (content d) (style d)
        (fun x k => if Elem_eqb e x && String.eqb c k then v else classList d x k)
        (value d) (img_src d) (img_onerror d).
Definition set_value (e : Elem) (v : string) (d : Dom) : Dom :=
  mkDom (content d) (style d) (classList d)
        (fun x => if Elem_eqb e x then v else value d x)
        (img_src d) (img_onerror d).
Definition set_img_src v (d : Dom) : Dom :=
  mkDom (content d) (style d) (classList d) (value d) v (img_onerror d).
Definition set_img_onerror v (d : Dom) : Dom :=
  mkDom (content d) (style d) (classList d) (value d) (img_src d) v.

(** ** The media element *)

(** The one-shot [canplay] listeners: the closure [onCanPlay] that
    [playTrack] binds and the one that [playSpecificTrack] binds. *)
Inductive Listener : Type := OfPlayTrack | OfPlaySpecificTrack.

Record Audio : Type := mkAudio {
  src : option Z;              (* [/api/player/stream/<id>] *)
  paused : bool;
  listeners : list Listener    (* the bound [canplay] listeners, newest first *)
}.

(** How many [canplay] listeners are bound. *)
Definition canplay (a : Audio) : nat := List.length (listeners a).

(** ** Requests, answers, timers *)

Inductive Method : Type := GET | POST | DELETE.

Inductive Url : Type :=
| ApiPlayerCurrent                                   (* /api/player/current *)
| ApiPlayerNext (scope : string)                     (* /api/player/next?scope= *)
| ApiPlayerPrev                                      (* /api/player/prev *)
| ApiCategories                                      (* /api/categories *)
| ApiCollections (category : string) (q : option string)
                                (* /api/collections?category=&limit=100[&q=] *)
| ApiCollection (id : Z)                             (* /api/collections/<id> *)
| ApiUpvote (id : Z).                                (* /api/upvote/<id> *)

Record Request : Type := mkRequest { method : Method; url : Url }.

(** How a request ends.  [Failed] stands for every way [api] can throw: a
    rejected [fetch], a status that is not ok, a body that is not JSON. *)
Inductive Answer : Type :=
| Failed
| Player (d : PlayerData)
| CategoryList (cats : list Category)
| CollectionList (cols : list Collection)
| Detail (tracks : list Track)
| Done.

(** The function instance that is suspended on a request. *)
Inductive Cont : Type :=
| KLoadCurrent
| KNextTrack
| KPrevTrack
| KUpvote (was_upvoted : bool)
| KCategories
| KCollections
| KCollectionDetail.

(** The callbacks handed to [setTimeout]. *)
Inductive TimerAction : Type :=
| TLoadCurrent            (* setTimeout(loadCurrent, 3000) *)
| TNextTrack              (* setTimeout(nextTrack, 1000) *)
| TSearch (q : string)    (* the debounced search closure *)
| THideToast              (* () => t.classList.remove('show') *)
| TStartupRetry.          (* () => { if (!state.track) loadCurrent(); } *)

Record Timer : Type := mkTimer { tid : nat; due : nat; action : TimerAction }.

(** ** The world *)

Record World : Type := mkWorld {
  state : State;
  dom : Dom;
  audio : Audio;
  now : nat;                      (* milliseconds since the page loaded *)
  timers : list Timer;
  nextTimer : nat;                (* the id the next [setTimeout] returns *)
  searchTimeout : option nat;     (* [let searchTimeout] *)
  pending : list Cont;            (* requests that have not been answered *)
  requests : list Request;        (* every request sent, oldest first *)
  toasts : list string;           (* every message passed to [showToast] *)
  console : list string
}.

Definition with_state (f : State -> State) (w : World) : World :=
  mkWorld (f (state w)) (dom w) (audio w) (now w) (timers w) (nextTimer w)
          (searchTimeout w) (pending w) (requests w) (toasts w) (console w).
Definition with_dom (f : Dom -> Dom) (w : World) : World :=
  mkWorld (state w) (f (dom w)) (audio w) (now w) (timers w) (nextTimer w)
          (searchTimeout w) (pending w) (requests w) (toasts w) (console w).
Definition with_audio (f : Audio -> Audio) (w : World) : World :=
  mkWorld (state w) (dom w) (f (audio w)) (now w) (timers w) (nextTimer w)
          (searchTimeout w) (pending w) (requests w) (toasts w) (console w).
Definition set_now v (w : World) : World :=
  mkWorld (state w) (dom w) (audio w) v (timers w) (nextTimer w)
          (searchTimeout w) (pending w) (requests w) (toasts w) (console w).
Definition set_timers v (w : World) : World :=
  mkWorld (state w) (dom w) (audio w) (now w) v (nextTimer w)
          (searchTimeout w) (pending w) (requests w) (toasts w) (console w).
Definition set_nextTimer v (w : World) : World :=
  mkWorld (state w) (dom w) (audio w) (now w) (timers w) v
          (searchTimeout w) (pending w) (requests w) (toasts w) (console w).
Definition set_searchTimeout v (w : World) : World :=
  mkWorld (state w) (dom w) (audio w) (now w) (timers w) (nextTimer w)
          v (pending w) (requests w) (toasts w) (console w).
Definition set_pending v (w : World) : World :=
  mkWorld (state w) (dom w) (audio w) (now w) (timers w) (nextTimer w)
          (searchTimeout w) v (requests w) (toasts w) (console w).
Definition set_requests v (w : World) : World :=
  mkWorld (state w) (dom w) (audio w) (now w) (timers w) (nextTimer w)
          (searchTimeout w) (pending w) v (toasts w) (console w).
Definition set_toasts v (w : World) : World :=
  mkWorld (state w) (dom w) (audio w) (now w) (timers w) (nextTimer w)
          (searchTimeout w) (pending w) (requests w) v (console w).
Definition set_console v (w : World) : World :=
  mkWorld (state w) (dom w) (audio w) (now w) (timers w) (nextTimer w)
          (searchTimeout w) (pending w) (requests w) (toasts w) v.

(** ** Runtime services: [api], [setTimeout], [clearTimeout], [console] *)

(** [await api(method, path)]: the request goes out and the caller is
    suspended until an [Answer] arrives. *)
Definition api (m : Method) (u : Url) (k : Cont) (w : World) : World :=
  set_pending (pending w ++ [k]) (set_requests (requests w ++ [mkRequest m u]) w).

Definition setTimeout (a : TimerAction) (delay : nat) (w : World) : World :=
  set_nextTimer (S (nextTimer w))
    (set_timers (timers w ++ [mkTimer (nextTimer w) (now w + delay) a]) w).

Definition clearTimeout (h : option nat) (w : World) : World :=
  match h with
  | None => w
  | Some id => set_timers (filter (fun t => negb (Nat.eqb (tid t) id)) (timers w)) w
  end.

Definition console_log (msg : string) (w : World) : World :=
  set_console (console w ++ [msg]) w.

(** [String.prototype.trim] for code units below 256. *)
Definition is_space (c : ascii) : bool :=
  let n := nat_of_ascii c in
  ((9 <=? n) && (n <=? 13) || (n =? 32) || (n =? 160))%nat.

Fixpoint trim_start (s : string) : string :=
  match s with
  | EmptyString => EmptyString
  | String c r => if is_space c then trim_start r else s
  end.

Fixpoint trim_end (s : string) : string :=
  match s with
  | EmptyString => EmptyString
  | String c r =>
      match trim_end r with
      | EmptyString => if is_space c then EmptyString else String c EmptyString
      | r' => String c r'
      end
  end.

Definition trim (s : string) : string := trim_end (trim_start s).

(** Truthiness of an optional string argument ([undefined] and [''] are
    falsy). *)
Definition truthy (q : option string) : option string :=
  match q with
  | Some EmptyString => None
  | other => other
  end.

(** ** Toast *)

Definition showToast (msg : string) (w : World) : World :=
  let w := with_dom (set_content Toast [Text msg]) w in
  let w := with_dom (set_class Toast "show" true) w in
  let w := set_toasts (toasts w ++ [msg]) w in
  setTimeout THideToast 2500 w.

Definition hideToast (w : World) : World :=
  with_dom (set_class Toast "show" false) w.

(** ** Player logic *)

Definition setLoading (loading : bool) (w : World) : World :=
  let w := with_state (set_isLoading loading) w in
  with_dom (set_style LoadingSpinner display (if loading then "flex" else "none")) w.

Definition updatePlayBtn (w : World) : World :=
  with_dom (set_content PlayBtn
    [Text (if isPlaying (state w) then "&#9646;&#9646;" else "&#9654;")]) w.

Definition updateHeart (active : bool) (w : World) : World :=
  let w := with_dom (set_content HeartBtn
                       [Text (if active then "&#9829;" else "&#9825;")]) w in
  with_dom (set_class HeartBtn "active" active) w.

Definition setPlaceholderColor (name : string) (w : World) : World :=
  with_dom (set_style ArtBox background (gradient (placeholder_hue name))) w.

Definition has_art (c : Collection) : bool :=
  match c_art_url c with
  | Some (String _ _) => true
  | _ => false
  end.

Definition show_placeholder (w : World) : World :=
  let w := with_dom (set_style ArtImg display "none") w in
  with_dom (set_style ArtPlaceholder display "block") w.

Definition loadArt (c : option Collection) (w : World) : World :=
  match c with
  | Some col =>
      if has_art col then
        let w := with_dom (set_img_src (Some (c_id col))) w in
        let w := with_dom (set_style ArtImg display "block") w in
        let w := with_dom (set_style ArtPlaceholder display "none") w in
        with_dom (set_img_onerror (Some col)) w
      else setPlaceholderColor (c_name col) (show_placeholder w)
  | None => setPlaceholderColor "music" (show_placeholder w)
  end.

(** [img.onerror], when the art cannot be fetched. *)
Definition artImg_onerror (w : World) : World :=
  match img_onerror (dom w) with
  | Some col => setPlaceholderColor (c_name col) (show_placeholder w)
  | None => w
  end.

Definition applyPlayerState (data : PlayerData) (w : World) : World :=
  match d_track data with
  | None =>
      let w := with_dom (set_content TrackTitle [Text "No tracks available"]) w in
      let w := with_dom (set_content CollectionName [Text "Waiting for crawl..."]) w in
      with_dom (set_content Breadcrumb [Text ""]) w
  | Some t =>
      let w := with_state (set_track (Some t)) w in
      let w := with_state (set_collection (d_collection data)) w in
      let w := with_state (set_categoryName (d_category_name data)) w in
      let w := with_dom (set_content TrackTitle [Text (t_title t)]) w in
      let w := with_dom (set_content CollectionName
                 [Text (match d_collection data with
                        | Some c => c_name c
                        | None => "--"
                        end)]) w in
      let crumb := d_category_name data ++
                   match d_collection data with
                   | Some c => " > " ++ c_name c
                   | None => ""
                   end in
      let fmt := Js.toUpperCase (t_format t) in
      let w := with_dom (set_content Breadcrumb [Text (crumb ++ " "); Badge fmt]) w in
      let w := updateHeart (t_upvoted t) w in
      let w := with_dom (set_style PrevBtn opacity
                           (if d_has_prev data then "1" else "0.3")) w in
      loadArt (d_collection data) w
  end.

(** [audio.src = ...; audio.load(); audio.addEventListener('canplay', onCanPlay)].
    Loading a new source leaves the element paused. *)
Definition audio_load (l : Listener) (id : Z) (a : Audio) : Audio :=
  mkAudio (Some id) true (l :: listeners a).

Definition audio_play (a : Audio) : Audio := mkAudio (src a) false (listeners a).
Definition audio_pause (a : Audio) : Audio := mkAudio (src a) true (listeners a).

(** [audio.removeEventListener('canplay', onCanPlay)], called by the
    listener that is running, which is the oldest one still bound. *)
Definition audio_unbind (a : Audio) : Audio :=
  mkAudio (src a) (paused a) (removelast (listeners a)).

Definition playTrack (w : World) : World :=
  match track (state w) with
  | None => w
  | Some t =>
      let w := setLoading true w in
      with_audio (audio_load OfPlayTrack (t_id t)) w
  end.

(** The handler given to [audio.play().catch(...)]: the one of [playTrack]
    logs, the one of [playSpecificTrack] does nothing. *)
Definition play_rejected (l : Listener) (w : World) : World :=
  match l with
  | OfPlayTrack => console_log "Autoplay blocked:" w
  | OfPlaySpecificTrack => w
  end.

(** The body of the [onCanPlay] listener [l].  It runs from a media event,
    outside any user gesture, so the browser may refuse [audio.play()]:
    [ok] tells whether playback starts.  If it does not, the element stays
    paused and the promise is rejected; its handler runs when the listener
    has returned.  The statements after [play()] run in both cases. *)
Definition onCanPlay (l : Listener) (ok : bool) (w : World) : World :=
  let w := setLoading false w in
  let w := if ok then with_audio audio_play w else w in
  let w := with_state (set_isPlaying true) w in
  let w := updatePlayBtn w in
  let w := with_audio audio_unbind w in
  if ok then w else play_rejected l w.

Definition loadCurrent (w : World) : World :=
  api GET ApiPlayerCurrent KLoadCurrent w.

Definition loadCurrent_then (a : Answer) (w : World) : option World :=
  match a with
  | Player data => Some (applyPlayerState data w)
  | Failed =>
      let w := console_log "Failed to load current track:" w in
      Some (setTimeout TLoadCurrent 3000 w)
  | _ => None
  end.

Definition nextTrack (w : World) : World :=
  if isLoading (state w) then w
  else
    let w := setLoading true w in
    api POST (ApiPlayerNext (scope (state w))) KNextTrack w.

Definition nextTrack_then (a : Answer) (w : World) : option World :=
  match a with
  | Player data => Some (playTrack (applyPlayerState data w))
  | Failed =>
      let w := console_log "Next failed:" w in
      let w := showToast "Failed to load next track" w in
      Some (setLoading false w)
  | _ => None
  end.

Definition prevTrack (w : World) : World :=
  if isLoading (state w) then w
  else
    let w := setLoading true w in
    api POST ApiPlayerPrev KPrevTrack w.

Definition prevTrack_then (a : Answer) (w : World) : option World :=
  match a with
  | Player data => Some (playTrack (applyPlayerState data w))
  | Failed =>
      let w := showToast "No previous track" w in
      Some (setLoading false w)
  | _ => None
  end.

(** [togglePlay] runs from a click or a key press; its [audio.play()] is
    inside that gesture and starts playback. *)
Definition togglePlay (w : World) : World :=
  match track (state w) with
  | None => nextTrack w
  | Some _ =>
      let w :=
        if paused (audio w) then
          let w := match src (audio w) with
                   | None => playTrack w
                   | Some _ => with_audio audio_play w
                   end in
          with_state (set_isPlaying true) w
        else
          let w := with_audio audio_pause w in
          with_state (set_isPlaying false) w in
      updatePlayBtn w
  end.

(** The always-bound media listeners. *)
Definition audio_onended (w : World) : World :=
  let w := with_state (set_isPlaying false) w in
  let w := updatePlayBtn w in
  nextTrack w.

Definition audio_onerror (w : World) : World :=
  let w := console_log "Audio error:" w in
  let w := setLoading false w in
  let w := showToast "Playback error, skipping..." w in
  setTimeout TNextTrack 1000 w.

(** ** Upvote *)

Definition set_upvoted (v : bool) (t : Track) : Track :=
  mkTrack (t_id t) (t_title t) (t_filename t) (t_format t) v.

Definition toggleUpvote (w : World) : World :=
  match track (state w) with
  | None => w
  | Some t =>
      if t_upvoted t
      then api DELETE (ApiUpvote (t_id t)) (KUpvote true) w
      else api POST (ApiUpvote (t_id t)) (KUpvote false) w
  end.

(** After the [await]: the branch was chosen before it, the assignment goes
    to whatever [state.track] is by now. *)
Definition toggleUpvote_then (was_upvoted : bool) (a : Answer) (w : World) : World :=
  match a, track (state w) with
  | Failed, _ | _, None => showToast "Upvote failed" w
  | _, Some t =>
      let w := with_state (set_track (Some (set_upvoted (negb was_upvoted) t))) w in
      let w := showToast (if was_upvoted then "Removed from library"
                          else "Saved to library") w in
      updateHeart (negb was_upvoted) w
  end.

(** ** Browse panel *)

(** [state.browseStack.push(f)] and [state.browseStack.pop()]: both work at
    the end of the array, and popping an empty array leaves it empty. *)
Definition push (f : Frame) (w : World) : World :=
  with_state (fun s => set_browseStack (browseStack s ++ [f]) s) w.

Definition pop (w : World) : World :=
  with_state (fun s => set_browseStack (removelast (browseStack s)) s) w.

(** [state.browseStack[state.browseStack.length - 1]], [undefined] on an
    empty stack. *)
Definition top (stack : list Frame) : option Frame :=
  match stack with
  | [] => None
  | f :: r => Some (last r f)
  end.

Definition loadCategories (w : World) : World :=
  let w := with_dom (set_content BrowseTitle [Text "Browse"]) w in
  let w := with_dom (set_style BrowseBack display "none") w in
  let w := with_dom (set_value BrowseSearchInput "") w in
  let w := with_dom (set_content BrowseList [ItemLoading]) w in
  api GET ApiCategories KCategories w.

Definition loadCategories_then (a : Answer) (w : World) : option World :=
  match a with
  | CategoryList cats =>
      Some (with_dom (set_content BrowseList (map ItemCategory cats)) w)
  | Failed => Some (with_dom (set_content BrowseList [ItemFailed]) w)
  | _ => None
  end.

Definition loadCollections (category : string) (query : option string)
    (w : World) : World :=
  let w := with_dom (set_content BrowseTitle [Text category]) w in
  let w := with_dom (set_style BrowseBack display "block") w in
  let w := with_dom (set_content BrowseList [ItemLoading]) w in
  api GET (ApiCollections category (truthy query)) KCollections w.

Definition loadCollections_then (a : Answer) (w : World) : option World :=
  match a with
  | CollectionList [] =>
      Some (with_dom (set_content BrowseList [ItemNoCollections]) w)
  | CollectionList cols =>
      Some (with_dom (set_content BrowseList (map ItemCollection cols)) w)
  | Failed => Some (with_dom (set_content BrowseList [ItemFailed]) w)
  | _ => None
  end.

Definition loadCollectionDetail (id : Z) (name : string) (w : World) : World :=
  let w := with_dom (set_content BrowseTitle [Text name]) w in
  let w := with_dom (set_style BrowseBack display "block") w in
  let w := with_dom (set_content BrowseList [ItemLoading]) w in
  api GET (ApiCollection id) KCollectionDetail w.

Definition loadCollectionDetail_then (a : Answer) (w : World) : option World :=
  match a with
  | Detail tracks =>
      Some (with_dom (set_content BrowseList (map ItemTrack tracks)) w)
  | Failed => Some (with_dom (set_content BrowseList [ItemFailed]) w)
  | _ => None
  end.

Definition openBrowse (w : World) : World :=
  let w := with_dom (set_class BrowseOverlay "open" true) w in
  let w := with_dom (set_class BrowsePanel "open" true) w in
  let w := with_state (set_browseStack []) w in
  loadCategories w.

Definition closeBrowse (w : World) : World :=
  let w := with_dom (set_class BrowseOverlay "open" false) w in
  with_dom (set_class BrowsePanel "open" false) w.

Definition browseBack (w : World) : World :=
  let w := pop w in
  match top (browseStack (state w)) with
  | None => loadCategories w
  | Some (FCategory name) => loadCollections name None w
  | Some (FCollection id name) => loadCollectionDetail id name w
  end.

Definition playSpecificTrack (t : Track) (w : World) : World :=
  let w := with_state (set_track (Some t)) w in
  let w := with_dom (set_content TrackTitle [Text (t_title t)]) w in
  let fmt := Js.toUpperCase (t_format t) in
  let w := with_dom (set_content Breadcrumb [Badge fmt]) w in
  let w := updateHeart (t_upvoted t) w in
  let w := setLoading true w in
  with_audio (audio_load OfPlaySpecificTrack (t_id t)) w.

(** The click listeners of the rows of the browse list. *)
Definition categoryItem_click (cat : Category) (w : World) : World :=
  loadCollections (cat_name cat) None (push (FCategory (cat_name cat)) w).

Definition collectionItem_click (col : Collection) (w : World) : World :=
  loadCollectionDetail (c_id col) (c_name col)
    (push (FCollection (c_id col) (c_name col)) w).

Definition trackItem_click (t : Track) (w : World) : World :=
  closeBrowse (playSpecificTrack t w).

(** The [input] listener of the search box. *)
Definition searchInput_oninput (text : string) (w : World) : World :=
  let w := with_dom (set_value BrowseSearchInput text) w in
  let w := clearTimeout (searchTimeout w) w in
  let q := trim text in
  let id := nextTimer w in
  let w := setTimeout (TSearch q) 300 w in
  set_searchTimeout (Some id) w.

(** The closure the search box hands to [setTimeout]. *)
Definition search_fire (q : string) (w : World) : World :=
  match top (browseStack (state w)) with
  | Some (FCategory name) => loadCollections name (Some q) w
  | _ => w
  end.

(** ** Timers and the passing of time *)

Definition run_timer (a : TimerAction) (w : World) : World :=
  match a with
  | TLoadCurrent => loadCurrent w
  | TNextTrack => nextTrack w
  | TSearch q => search_fire q w
  | THideToast => hideToast w
  | TStartupRetry =>
      match track (state w) with
      | None => loadCurrent w
      | Some _ => w
      end
  end.

Definition is_due (t : nat) (x : Timer) : bool := (due x <=? t)%nat.

(** One millisecond passes; the timers that have come due run in the order
    in which they were set.  No callback of this script clears a timer, and
    every delay is positive, so one pass over the due ones is all there is. *)
Definition tick (w : World) : World :=
  let t := S (now w) in
  let ready := filter (is_due t) (timers w) in
  let later := filter (fun x => negb (is_due t x)) (timers w) in
  fold_left (fun w x => run_timer (action x) w) ready
            (set_timers later (set_now t w)).

Fixpoint wait (ms : nat) (w : World) : World :=
  match ms with
  | O => w
  | S k => wait k (tick w)
  end.

(** ** Events *)

Inductive Button : Type :=
| BtnPlay | BtnNext | BtnPrev | BtnHeart | BtnMenu
| BtnOverlay | BtnClose | BtnBack.

(** A click on a row carries the object its listener closes over; the rows
    kept in [content] are what was rendered.  The media can play either
    with [audio.play()] allowed ([CanPlay]) or with it refused
    ([CanPlayBlocked]). *)
Inductive Event : Type :=
| Click (b : Button)
| KeyDown (code : string)              (* outside an input element *)
| ScopeClick (s : string)
| CategoryClick (cat : Category)
| CollectionClick (col : Collection)
| TrackClick (t : Track)
| SearchInput (text : string)
| Answered (i : nat) (a : Answer)      (* the i-th pending request ends *)
| CanPlay | CanPlayBlocked | Ended | MediaError | ArtError
| Tick.

Definition click (b : Button) : World -> World :=
  match b with
  | BtnPlay => togglePlay
  | BtnNext => nextTrack
  | BtnPrev => prevTrack
  | BtnHeart => toggleUpvote
  | BtnMenu => openBrowse
  | BtnOverlay | BtnClose => closeBrowse
  | BtnBack => browseBack
  end.

Definition keydown (code : string) (w : World) : World :=
  if String.eqb code "Space" then togglePlay w
  else if String.eqb code "ArrowRight" then nextTrack w
  else if String.eqb code "ArrowLeft" then prevTrack w
  else if String.eqb code "KeyU" then toggleUpvote w
  else w.

Definition resume (k : Cont) (a : Answer) (w : World) : option World :=
  match k with
  | KLoadCurrent => loadCurrent_then a w
  | KNextTrack => nextTrack_then a w
  | KPrevTrack => prevTrack_then a w
  | KUpvote was => Some (toggleUpvote_then was a w)
  | KCategories => loadCategories_then a w
  | KCollections => loadCollections_then a w
  | KCollectionDetail => loadCollectionDetail_then a w
  end.

Fixpoint remove_nth {A} (i : nat) (l : list A) : list A :=
  match i, l with
  | _, [] => []
  | O, _ :: r => r
  | S j, x :: r => x :: remove_nth j r
  end.

(** An answer for a request that is not pending, or of a shape the service
    never gives to that request, is no event of the page. *)
Definition answered (i : nat) (a : Answer) (w : World) : World :=
  match nth_error (pending w) i with
  | None => w
  | Some k =>
      match resume k a (set_pending (remove_nth i (pending w)) w) with
      | Some w' => w'
      | None => w
      end
  end.

(** The [canplay] event: the bound listeners run, the oldest first. *)
Definition canplay_event (ok : bool) (w : World) : World :=
  fold_right (fun l v => onCanPlay l ok v) w (listeners (audio w)).

(** The media element ends playback paused. *)
Definition step (e : Event) (w : World) : World :=
  match e with
  | Click b => click b w
  | KeyDown code => keydown code w
  | ScopeClick s => with_state (set_scope s) w
  | CategoryClick cat => categoryItem_click cat w
  | CollectionClick col => collectionItem_click col w
  | TrackClick t => trackItem_click t w
  | SearchInput text => searchInput_oninput text w
  | Answered i a => answered i a w
  | CanPlay => canplay_event true w
  | CanPlayBlocked => canplay_event false w
  | Ended => audio_onended (with_audio audio_pause w)
  | MediaError => audio_onerror w
  | ArtError => artImg_onerror w
  | Tick => tick w
  end.

Definition run (evs : list Event) (w : World) : World :=
  fold_left (fun w e => step e w) evs w.

(** ** Page load *)

Definition state0 : State :=
  mkState None None "" "track" false false [].

(** A page whose elements are all empty; the markup of [index.html] is not
    part of the script. *)
Definition blank : Dom :=
  mkDom (fun _ => []) (fun _ _ => "") (fun _ _ => false) (fun _ => "") None None.

Definition fresh (d : Dom) : World :=
  mkWorld state0 d (mkAudio None true []) 0 [] 0 None [] [] [] [].

(** The initialisation at the end of the script (status polling, which
    touches neither [state] nor the timers below, is left out). *)
Definition init (d : Dom) : World :=
  let w := loadCurrent (fresh d) in
  let w := setTimeout TStartupRetry (5 * 1000) w in
  setTimeout TStartupRetry (15 * 1000) w.

(** ** Vocabulary of the properties *)

Definition is_transition (k : Cont) : bool :=
  match k with
  | KNextTrack | KPrevTrack => true
  | _ => false
  end.

(** Requests of [nextTrack] and [prevTrack] that are still unanswered. *)
Definition in_flight (w : World) : nat :=
  List.length (filter is_transition (pending w)).

Definition failure_message (k : Cont) : string :=
  match k with
  | KPrevTrack => "No previous track"
  | _ => "Failed to load next track"
  end.

(** What the player holds and shows of the snapshot it applied last. *)
Definition same_snapshot (w w' : World) : Prop :=
  track (state w') = track (state w) /\
  collection (state w') = collection (state w) /\
  categoryName (state w') = categoryName (state w) /\
  content (dom w') TrackTitle = content (dom w) TrackTitle /\
  content (dom w') CollectionName = content (dom w) CollectionName /\
  content (dom w') Breadcrumb = content (dom w) Breadcrumb /\
  style (dom w') PrevBtn opacity = style (dom w) PrevBtn opacity.

(** The operation between [w] and [w'] set exactly one timer, which calls
    [loadCurrent] again 3000 ms later. *)
Definition retry_scheduled (w w' : World) : Prop :=
  exists id, timers w' = (timers w ++ [mkTimer id (now w + 3000) TLoadCurrent])%list.

Definition no_track : PlayerData := mkPlayerData None None "" false.

(** Two pages that show the same thing. *)
Definition same_page (d d' : Dom) : Prop :=
  (forall e, content d' e = content d e) /\
  (forall e p, style d' e p = style d e p) /\
  (forall e c, classList d' e c = classList d e c) /\
  (forall e, value d' e = value d e) /\
  img_src d' = img_src d /\ img_onerror d' = img_onerror d.

(** The text [m:ss] of a whole number of minutes and of seconds below 60,
    the seconds written with exactly two digits. *)
Definition digit (z : Z) : ascii := ascii_of_nat (48 + Z.to_nat z).

Definition two_digits (z : Z) : string :=
  String (digit (z / 10)) (String (digit (z mod 10)) EmptyString).

(** [s mod 60] for a number that is not negative. *)
Definition Qmod60 (q : Q) : Q := (q - 60 * inject_Z (Qfloor (q / 60)))%Q.

(** The events that clear [isLoading] whatever is pending: the media
    [error] listener, and a [canplay] event that finds a listener bound
    (by [playTrack] or by [playSpecificTrack]). *)
Definition clears_flag (e : Event) (w : World) : bool :=
  match e with
  | MediaError => true
  | CanPlay | CanPlayBlocked => negb (Nat.eqb (canplay (audio w)) 0)
  | _ => false
  end.

(** An event is serial in the world it meets unless it clears the flag
    while a request of [nextTrack] or [prevTrack] is unanswered.  Clicks,
    keys, rows, answers, timers and the end of a track are serial
    everywhere. *)
Definition serial (e : Event) (w : World) : bool :=
  negb (clears_flag e w) || Nat.eqb (in_flight w) 0.

(** Every event of the run is serial in the world it meets. *)
Fixpoint serial_run (evs : list Event) (w : World) : bool :=
  match evs with
  | [] => true
  | e :: rest => serial e w && serial_run rest (step e w)
  end.

(** The invariant behind the at-most-one bound: while a transition request
    is out the flag is set. *)
Definition Serialized (w : World) : Prop :=
  (in_flight w <= 1)%nat /\
  (in_flight w = 1%nat -> isLoading (state w) = true).

(** The two quantities the invariant reads. *)
Definition flag_view (w : World) : nat * bool :=
  (in_flight w, isLoading (state w)).

(** A playing track and one more to come. *)
Definition sample_track (id : Z) : Track :=
  mkTrack id "Space Debris" "debris.mod" "mod" false.

Definition sample_answer (id : Z) : Answer :=
  Player (mkPlayerData (Some (sample_track id)) None "music" true).

(** The page loads and shows a track; the listener presses next, the track
    plays; the listener presses next again and, while that request is out,
    the stream of the playing track breaks; a second later the [error]
    listener's timer calls [nextTrack]. *)
Definition broken_stream : list Event :=
  ([Answered 0 (sample_answer 1); Click BtnNext; Answered 0 (sample_answer 2);
    CanPlay; Click BtnNext; MediaError] ++ repeat Tick 1000)%list.

(** The other way round the flag.  The track shown at page load is
    started with the play button while the request of [nextTrack] is out,
    or a track row is clicked meanwhile; either binds a [canplay] listener,
    which clears the flag when the media is ready. *)
Definition play_during_request : list Event :=
  [Answered 0 (sample_answer 1); Click BtnNext; Click BtnPlay; CanPlay; Click BtnNext].

Definition row_during_request : list Event :=
  [Click BtnNext; TrackClick (sample_track 3); CanPlay; Click BtnNext].

(** The debounced search: its timers, its requests, and a burst of typing. *)
Definition is_search_timer (t : Timer) : bool :=
  match action t with
  | TSearch _ => true
  | _ => false
  end.

Definition search_timers (w : World) : list Timer :=
  filter is_search_timer (timers w).

Definition is_search (r : Request) : bool :=
  match url r with
  | ApiCollections _ _ => true
  | _ => false
  end.

Definition search_requests (w : World) : list Request :=
  filter is_search (requests w).

(** [searchTimeout] names every search timer that has not fired. *)
Definition debounce_tracked (w : World) : Prop :=
  forall t, In t (timers w) -> is_search_timer t = true ->
            searchTimeout w = Some (tid t).

(** Keystrokes after the first one, each with the time since the one
    before it and the text the box holds after it. *)
Fixpoint typing (keys : list (nat * string)) (w : World) : World :=
  match keys with
  | [] => w
  | (gap, text) :: rest => typing rest (searchInput_oninput text (wait gap w))
  end.

Definition final_text (first : string) (keys : list (nat * string)) : string :=
  last (map snd keys) first.

(** The request the search closure sends for query [q] on a given stack. *)
Definition search_request_for (stack : list Frame) (q : string) : list Request :=
  match top stack with
  | Some (FCategory name) => [mkRequest GET (ApiCollections name (truthy (Some q)))]
  | _ => []
  end.

Definition timer_view (w : World) : list Timer * nat * option nat * list Frame :=
  (timers w, now w, searchTimeout w, browseStack (state w)).

Definition fired_search (stack : list Frame) (x : Timer) : list Request :=
  match action x with
  | TSearch q => search_request_for stack q
  | _ => []
  end.

(** Right after a keystroke: one search timer, due in 300 ms, carrying [q],
    and [searchTimeout] holds its id. *)
Definition armed (w : World) (q : string) : Prop :=
  exists id, search_timers w = [mkTimer id (now w + 300) (TSearch q)]
             /\ searchTimeout w = Some id.


(** What the debounce reads of the world. *)
Definition debounce_view (w : World) : list Timer * option nat :=
  (search_timers w, searchTimeout w).

(** A run in which the play button, a track row and a media error all
    occur, none of them clearing the flag during a request. *)
Definition quiet_run : list Event :=
  [Answered 0 (sample_answer 1); Click BtnPlay; CanPlay; MediaError;
   Click BtnNext; TrackClick (sample_track 3); Answered 0 (sample_answer 2);
   CanPlayBlocked; Click BtnPrev].

(** Concrete worlds and inputs for the examples. *)
Definition loading_world : World := nextTrack (init blank).

Definition playing_world : World := playSpecificTrack (sample_track 7) (fresh blank).

Definition parties : Category := mkCategory "parties" 12 340.

Definition assembly : Collection := mkCollection 5 "assembly" None 20.

Definition browsing_world : World := categoryItem_click parties (openBrowse (init blank)).

Definition deep_world : World :=
  push (FCollection 5 "assembly") (push (FCategory "parties") (fresh blank)).

Definition burst : list (nat * string) :=
  [(120, "as"); (90, "ass"); (250, " assembly ")]%nat.

(** ** Vocabulary of the further properties *)

Definition has_track (w : World) : bool :=
  match track (state w) with
  | Some _ => true
  | None => false
  end.

Definition is_scope_click (e : Event) : bool :=
  match e with
  | ScopeClick _ => true
  | _ => false
  end.

(** The events that push, pop or reset the browse stack. *)
Definition navigates (e : Event) : bool :=
  match e with
  | Click BtnMenu | Click BtnBack | CategoryClick _ | CollectionClick _ => true
  | _ => false
  end.

(** The [canplay] event with [audio.play()] allowed, or refused. *)
Definition canplay_of (ok : bool) : Event :=
  if ok then CanPlay else CanPlayBlocked.

(** The listeners whose rejection handler logs, and what a [canplay]
    event with [play()] refused adds to the console. *)
Definition logs (l : Listener) : bool :=
  match l with
  | OfPlayTrack => true
  | OfPlaySpecificTrack => false
  end.

Definition blocked_log (ok : bool) (a : Audio) : list string :=
  if ok then []
  else List.repeat "Autoplay blocked:" (List.length (filter logs (listeners a))).

(** The glyphs of the play button and of the heart. *)
Definition play_glyph (playing : bool) : list Node :=
  [Text (if playing then "&#9646;&#9646;" else "&#9654;")].

Definition heart_glyph (active : bool) : list Node :=
  [Text (if active then "&#9829;" else "&#9825;")].

(** The spinner shows what [isLoading] says. *)
Definition spinner_mirrors (w : World) : Prop :=
  style (dom w) LoadingSpinner display
    = (if isLoading (state w) then "flex" else "none").

Definition play_button_mirrors (w : World) : Prop :=
  content (dom w) PlayBtn = play_glyph (isPlaying (state w)).

Definition heart_mirrors (w : World) : Prop :=
  forall t, track (state w) = Some t ->
    classList (dom w) HeartBtn "active" = t_upvoted t /\
    content (dom w) HeartBtn = heart_glyph (t_upvoted t).

(** What [browseBack] loads for the stack it finds after popping. *)
Definition reload_request (stack : list Frame) : Request :=
  match top stack with
  | None => mkRequest GET ApiCategories
  | Some (FCategory name) => mkRequest GET (ApiCollections name None)
  | Some (FCollection id _) => mkRequest GET (ApiCollection id)
  end.

Definition spinner_view (w : World) : bool * string :=
  (isLoading (state w), style (dom w) LoadingSpinner display).

Definition play_button_view (w : World) : bool * list Node :=
  (isPlaying (state w), content (dom w) PlayBtn).

(** The snapshot [data], whose track is [t], is the one held and shown, and
    its stream is what the media element is loading. *)
Definition applied (data : PlayerData) (t : Track) (w : World) : Prop :=
  track (state w) = Some t /\
  collection (state w) = d_collection data /\
  categoryName (state w) = d_category_name data /\
  content (dom w) TrackTitle = [Text (t_title t)] /\
  style (dom w) PrevBtn opacity = (if d_has_prev data then "1" else "0.3") /\
  isLoading (state w) = true /\
  src (audio w) = Some (t_id t).

Definition browse_cont (k : Cont) : bool :=
  match k with
  | KCategories | KCollections | KCollectionDetail => true
  | _ => false
  end.

(** What the art box shows: the image, the placeholder, the background. *)
Definition art_view (w : World) : string * string * string :=
  (style (dom w) ArtImg display, style (dom w) ArtPlaceholder display,
   style (dom w) ArtBox background).

Definition placeholder_view (name : string) : string * string * string :=
  ("none", "block", gradient (placeholder_hue name)).

Definition with_art (c : Collection) (u : string) : Collection :=
  mkCollection (c_id c) (c_name c) (Some u) (c_track_count c).

Definition without_art (c : Collection) : Collection :=
  mkCollection (c_id c) (c_name c) None (c_track_count c).

(** The toast and the timers that will hide it. *)
Definition toast_shown (w : World) : bool := classList (dom w) Toast "show".

Definition is_hide_timer (t : Timer) : bool :=
  match action t with
  | THideToast => true
  | _ => false
  end.

Definition hide_timers (w : World) : list Timer :=
  filter is_hide_timer (timers w).

(** Requests for the next track, and the timers that will ask for one. *)
Definition is_next (r : Request) : bool :=
  match url r with
  | ApiPlayerNext _ => true
  | _ => false
  end.

Definition next_requests (w : World) : list Request :=
  filter is_next (requests w).

Definition is_skip_timer (t : Timer) : bool :=
  match action t with
  | TNextTrack => true
  | _ => false
  end.

Definition skip_timers (w : World) : list Timer :=
  filter is_skip_timer (timers w).

(** What a skip timer does to the flag and to the requests for a next
    track, given the scope. *)
Definition skip_view (w : World) : bool * list Request * string :=
  (isLoading (state w), next_requests w, scope (state w)).

Definition skipped (v : bool * list Request * string) : bool * list Request * string :=
  match v with
  | (true, reqs, s) => (true, reqs, s)
  | (false, reqs, s) => (true, (reqs ++ [mkRequest POST (ApiPlayerNext s)])%list, s)
  end.

(** Calls of [loadCurrent] that are alive: requests for the current snapshot
    that have not been answered, and timers that may call it. *)
Definition is_load_cont (k : Cont) : bool :=
  match k with
  | KLoadCurrent => true
  | _ => false
  end.

Definition is_load_timer (t : Timer) : bool :=
  match action t with
  | TLoadCurrent | TStartupRetry => true
  | _ => false
  end.

Definition loads_pending (w : World) : nat :=
  List.length (filter is_load_cont (pending w)).

Definition loads_scheduled (w : World) : nat :=
  List.length (filter is_load_timer (timers w)).

Definition load_budget (w : World) : nat :=
  (loads_pending w + loads_scheduled w)%nat.

(** The polynomial hash [c0 * 31^(n-1) + ... + c(n-1)] that the loop of
    [setPlaceholderColor] computes as long as nothing overflows. *)
Definition poly31 (units : list Z) : Z :=
  fold_left (fun h c => 31 * h + c) units 0.

(** ** Escaping

    [esc] lets the browser do the work: it assigns the text to a detached
    element and reads its [innerHTML] back.  That serialisation replaces
    the ampersand, the no-break space and the two angle brackets by named
    references and leaves every other character alone. *)
Definition esc_char (c : ascii) : string :=
  if Ascii.eqb c "&" then "&amp;"
  else if Ascii.eqb c "<" then "&lt;"
  else if Ascii.eqb c ">" then "&gt;"
  else if Nat.eqb (nat_of_ascii c) 160 then "&nbsp;"
  else String c EmptyString.

Fixpoint escape_text (s : string) : string :=
  match s with
  | EmptyString => EmptyString
  | String c r => esc_char c ++ escape_text r
  end.

(** [esc(s)]; the argument may be missing ([s || '']). *)
Definition esc (s : option string) : string :=
  match s with
  | Some text => escape_text text
  | None => EmptyString
  end.

(** What an HTML parser reads back from the four references. *)
Fixpoint unescape_text (s : string) : string :=
  match s with
  | String "&" (String "a" (String "m" (String "p" (String ";" r)))) =>
      String "&" (unescape_text r)
  | String "&" (String "l" (String "t" (String ";" r))) =>
      String "<" (unescape_text r)
  | String "&" (String "g" (String "t" (String ";" r))) =>
      String ">" (unescape_text r)
  | String "&" (String "n" (String "b" (String "s" (String "p" (String ";" r))))) =>
      String (ascii_of_nat 160) (unescape_text r)
  | String c r => String c (unescape_text r)
  | EmptyString => EmptyString
  end.

Fixpoint occurs (c : ascii) (s : string) : bool :=
  match s with
  | EmptyString => false
  | String x r => Ascii.eqb x c || occurs c r
  end.

Definition plain_char (c : ascii) : bool :=
  negb (Ascii.eqb c "&" || Ascii.eqb c "<" || Ascii.eqb c ">"
        || Nat.eqb (nat_of_ascii c) 160).

Fixpoint plain_text (s : string) : bool :=
  match s with
  | EmptyString => true
  | String c r => plain_char c && plain_text r
  end.

(** At most one search is scheduled, and [searchTimeout] names it. *)
Definition one_search (w : World) : Prop :=
  search_timers w = [] \/
  exists x, search_timers w = [x] /\ searchTimeout w = Some (tid x).

Definition types_or_ticks (e : Event) : bool :=
  match e with
  | SearchInput _ | Tick => true
  | _ => false
  end.

(** * Properties *)

(** ** Bookkeeping of pending requests *)

Lemma nth_error_newest {A} (l : list A) (k : A) :
  nth_error (l ++ [k])%list (List.length l) = Some k.
Proof.
  induction l as [|x l IH]; simpl; auto.
Qed.

Lemma remove_nth_newest {A} (l : list A) (k : A) :
  remove_nth (List.length l) (l ++ [k])%list = l.
Proof.
  induction l as [|x l IH]; simpl; [reflexivity | now rewrite IH].
Qed.

(** ** Failure of a transition *)

Lemma failed_answer_recovers (w : World) (i : nat) (k : Cont) :
  nth_error (pending w) i = Some k ->
  is_transition k = true ->
  let w' := step (Answered i Failed) w in
  resume k Failed (set_pending (remove_nth i (pending w)) w) = Some w' /\
  toasts w' = (toasts w ++ [failure_message k])%list /\
  isLoading (state w') = false /\
  same_snapshot w w' /\
  pending w' = remove_nth i (pending w).
Proof.
  intros Hk Ht. simpl. unfold answered. rewrite Hk.
  destruct k; try discriminate Ht; simpl; unfold same_snapshot; simpl;
    repeat split; reflexivity.
Qed.

Lemma same_snapshot_trans (u v w : World) :
  same_snapshot u v -> same_snapshot v w -> same_snapshot u w.
Proof.
  unfold same_snapshot.
  intros (? & ? & ? & ? & ? & ? & ?) (? & ? & ? & ? & ? & ? & ?).
  repeat split; congruence.
Qed.

Lemma transition_sent (w : World) :
  isLoading (state w) = false ->
  nth_error (pending (nextTrack w)) (List.length (pending w)) = Some KNextTrack /\
  nth_error (pending (prevTrack w)) (List.length (pending w)) = Some KPrevTrack /\
  same_snapshot w (nextTrack w) /\ same_snapshot w (prevTrack w) /\
  toasts (nextTrack w) = toasts w /\ toasts (prevTrack w) = toasts w /\
  remove_nth (List.length (pending w)) (pending (nextTrack w)) = pending w /\
  remove_nth (List.length (pending w)) (pending (prevTrack w)) = pending w.
Proof.
  intros Hl. unfold nextTrack, prevTrack. rewrite Hl.
  cbn [pending api setLoading set_pending set_requests with_state with_dom].
  rewrite !nth_error_newest, !remove_nth_newest.
  unfold same_snapshot. repeat split; reflexivity.
Qed.

(** C2: when the request of [nextTrack] or [prevTrack] fails, the
    continuation completes normally, [showToast] is called exactly once,
    [isLoading] ends false, and the track, collection and category that
    were applied last are still the ones held and shown.  This holds in
    whatever world the failure arrives, and so for the whole operation
    started in a world that is not loading. *)
Theorem failed_transition_recovers (w : World) :
  (forall i k,
     nth_error (pending w) i = Some k ->
     is_transition k = true ->
     let w' := step (Answered i Failed) w in
     resume k Failed (set_pending (remove_nth i (pending w)) w) = Some w' /\
     toasts w' = (toasts w ++ [failure_message k])%list /\
     isLoading (state w') = false /\
     same_snapshot w w' /\
     pending w' = remove_nth i (pending w)) /\
  (isLoading (state w) = false ->
     let i := List.length (pending w) in
     let wn := step (Answered i Failed) (nextTrack w) in
     let wp := step (Answered i Failed) (prevTrack w) in
     toasts wn = (toasts w ++ ["Failed to load next track"])%list /\
     toasts wp = (toasts w ++ ["No previous track"])%list /\
     isLoading (state wn) = false /\ isLoading (state wp) = false /\
     same_snapshot w wn /\ same_snapshot w wp /\
     pending wn = pending w /\ pending wp = pending w).
Proof.
  split; [intros i k; apply failed_answer_recovers |].
  intros Hl. cbv zeta.
  destruct (transition_sent w Hl) as (Hn & Hp & Hsn & Hsp & Htn & Htp & Hrn & Hrp).
  destruct (failed_answer_recovers (nextTrack w) _ KNextTrack Hn eq_refl)
    as (_ & Hn1 & Hn2 & Hn3 & Hn4).
  destruct (failed_answer_recovers (prevTrack w) _ KPrevTrack Hp eq_refl)
    as (_ & Hp1 & Hp2 & Hp3 & Hp4).
  cbn [failure_message] in Hn1, Hp1.
  rewrite Htn in Hn1. rewrite Htp in Hp1. rewrite Hrn in Hn4. rewrite Hrp in Hp4.
  split; [exact Hn1 |]. split; [exact Hp1 |].
  split; [exact Hn2 |]. split; [exact Hp2 |].
  split; [exact (same_snapshot_trans _ _ _ Hsn Hn3) |].
  split; [exact (same_snapshot_trans _ _ _ Hsp Hp3) |].
  split; [exact Hn4 | exact Hp4].
Qed.

Lemma failed_transition_recovers_witness :
  toasts (step (Answered 1 Failed) loading_world) = ["Failed to load next track"] /\
  isLoading (state (step (Answered 1 Failed) loading_world)) = false /\
  toasts (step (Answered 1 Failed) (prevTrack (init blank))) = ["No previous track"].
Proof.
  destruct (proj1 (failed_transition_recovers loading_world) 1%nat KNextTrack
              eq_refl eq_refl) as (_ & Htoast & Hload & _).
  destruct (proj2 (failed_transition_recovers (init blank)) eq_refl)
    as (_ & Hprev & _).
  repeat split; assumption.
Defined.

(** ** Upvote *)

(** The continuation of [toggleUpvote] in whatever world the answer
    arrives. *)
Lemma toggleUpvote_then_effect (was : bool) (a : Answer) (w : World) (t : Track) :
  track (state w) = Some t ->
  (a <> Failed ->
     track (state (toggleUpvote_then was a w)) = Some (set_upvoted (negb was) t)) /\
  state (toggleUpvote_then was Failed w) = state w /\
  toasts (toggleUpvote_then was Failed w) = (toasts w ++ ["Upvote failed"])%list.
Proof.
  intros Ht. unfold toggleUpvote_then. rewrite Ht.
  split; [| split; [| reflexivity]].
  - intros Ha. destruct a; try congruence; reflexivity.
  - destruct w as [s ? ? ? ? ? ? ? ? ? ?]; destruct s; reflexivity.
Qed.

(** C3: with a current track, [toggleUpvote] sends DELETE when the track is
    upvoted and POST when it is not, and changes neither [state] nor the
    page nor the toasts while the request is out; a successful answer
    leaves the same track with its [upvoted] flag at the opposite value and
    every other field as it was, and the heart shows the new value; a
    failed answer leaves [state] as it was and shows exactly one toast. *)
Theorem upvote_flips_after_confirmation (w : World) (t : Track) :
  track (state w) = Some t ->
  let w1 := toggleUpvote w in
  let i := List.length (pending w) in
  requests w1 =
    (requests w ++ [mkRequest (if t_upvoted t then DELETE else POST)
                              (ApiUpvote (t_id t))])%list /\
  state w1 = state w /\ dom w1 = dom w /\ toasts w1 = toasts w /\
  (forall a, a <> Failed ->
     let w2 := step (Answered i a) w1 in
     track (state w2) = Some (set_upvoted (negb (t_upvoted t)) t) /\
     option_map t_upvoted (track (state w2)) = Some (negb (t_upvoted t)) /\
     option_map t_id (track (state w2)) = Some (t_id t) /\
     option_map t_title (track (state w2)) = Some (t_title t) /\
     option_map t_filename (track (state w2)) = Some (t_filename t) /\
     option_map t_format (track (state w2)) = Some (t_format t) /\
     classList (dom w2) HeartBtn "active" = negb (t_upvoted t) /\
     toasts w2 = (toasts w ++ [if t_upvoted t then "Removed from library"
                               else "Saved to library"])%list) /\
  state (step (Answered i Failed) w1) = state w /\
  toasts (step (Answered i Failed) w1) = (toasts w ++ ["Upvote failed"])%list.
Proof.
  intros Ht. unfold toggleUpvote. rewrite Ht. simpl.
  unfold answered.
  destruct (t_upvoted t) eqn:Hu; simpl;
    rewrite nth_error_newest, remove_nth_newest; simpl.
  all: repeat split; try reflexivity.
  all: try (destruct a; try congruence; simpl; rewrite Ht; reflexivity).
  all: try (destruct w as [s ? ? ? ? ? ? ? ? ? ?]; destruct s; reflexivity).
Qed.

Lemma upvote_flips_after_confirmation_witness :
  requests (toggleUpvote playing_world) = [mkRequest POST (ApiUpvote 7)] /\
  option_map t_upvoted
    (track (state (step (Answered 0 Done) (toggleUpvote playing_world))))
  = Some true.
Proof.
  destruct (upvote_flips_after_confirmation playing_world (sample_track 7) eq_refl)
    as (Hreq & _ & _ & _ & Hok & _).
  split; [exact Hreq | apply (Hok Done); discriminate].
Defined.

(** ** Start-up without tracks *)

(** The page has just loaded and [/api/player/current] answers without a
    track: no timer is set, so no retry of [loadCurrent] after 3000 ms. *)
Lemma null_track_answer_sets_no_timer :
  timers (step (Answered 0 (Player no_track)) (init blank)) = timers (init blank) /\
  ~ retry_scheduled (init blank) (step (Answered 0 (Player no_track)) (init blank)).
Proof.
  split; [reflexivity |].
  intros [id H]. vm_compute in H. discriminate H.
Qed.

(** C4, as the code has it: a successful answer without a track shows
    "No tracks available" / "Waiting for crawl...", empties the breadcrumb,
    shows no toast, completes normally and leaves [state] and the timers
    untouched: [loadCurrent] sets no retry on this path.  The retry after
    3000 ms is what a failed request gets, again without a toast. *)
Theorem loadCurrent_without_track (w : World) (i : nat) (data : PlayerData) :
  nth_error (pending w) i = Some KLoadCurrent ->
  d_track data = None ->
  let w' := step (Answered i (Player data)) w in
  let w'' := step (Answered i Failed) w in
  (loadCurrent_then (Player data) (set_pending (remove_nth i (pending w)) w) = Some w' /\
   content (dom w') TrackTitle = [Text "No tracks available"] /\
   content (dom w') CollectionName = [Text "Waiting for crawl..."] /\
   content (dom w') Breadcrumb = [Text ""] /\
   toasts w' = toasts w /\
   timers w' = timers w /\
   state w' = state w) /\
  (retry_scheduled w w'' /\ toasts w'' = toasts w /\ state w'' = state w).
Proof.
  intros Hk Hd. simpl. unfold answered. rewrite Hk. simpl.
  unfold applyPlayerState. rewrite Hd. simpl.
  repeat split; try reflexivity.
  exists (nextTimer w). reflexivity.
Qed.

Lemma loadCurrent_without_track_witness :
  content (dom (step (Answered 0 (Player no_track)) (init blank))) TrackTitle
    = [Text "No tracks available"] /\
  timers (step (Answered 0 (Player no_track)) (init blank)) = timers (init blank) /\
  retry_scheduled (init blank) (step (Answered 0 Failed) (init blank)).
Proof.
  destruct (loadCurrent_without_track (init blank) 0 no_track eq_refl eq_refl)
    as ((_ & Htitle & _ & _ & _ & Htimers & _) & Hretry & _).
  repeat split; assumption.
Defined.

(** ** Browse stack *)

Lemma top_push (l : list Frame) (f : Frame) : top (l ++ [f]) = Some f.
Proof.
  destruct l as [|x l]; simpl; [reflexivity |].
  f_equal. apply last_last.
Qed.

(** C6: from the root, opening category A, then collection B, then going
    back leaves exactly the frame of A on the stack; [browseBack] sends one
    request, the unfiltered collection list of A, shows A as the title and
    the loading row, and the answer to that request is what the list
    then shows. *)
Theorem back_returns_to_category (w : World) (A : Category) (B : Collection) :
  browseStack (state w) = [] ->
  let w2 := run [CategoryClick A; CollectionClick B] w in
  let w3 := step (Click BtnBack) w2 in
  browseStack (state w2) = [FCategory (cat_name A); FCollection (c_id B) (c_name B)] /\
  browseStack (state w3) = [FCategory (cat_name A)] /\
  requests w3 = (requests w2 ++ [mkRequest GET (ApiCollections (cat_name A) None)])%list /\
  pending w3 = (pending w2 ++ [KCollections])%list /\
  content (dom w3) BrowseTitle = [Text (cat_name A)] /\
  content (dom w3) BrowseList = [ItemLoading] /\
  forall c cols,
    content (dom (step (Answered (List.length (pending w2)) (CollectionList (c :: cols))) w3))
            BrowseList = map ItemCollection (c :: cols).
Proof.
  intros Hroot.
  destruct w as [s d a t ts nt st p rq to co]. destruct s as [tr cl cn sc pl ld bs].
  simpl in Hroot. subst bs.
  do 6 (split; [reflexivity |]).
  intros c cols.
  change (List.length (pending (run [CategoryClick A; CollectionClick B]
            (mkWorld (mkState tr cl cn sc pl ld []) d a t ts nt st p rq to co))))
    with (List.length ((p ++ [KCollections]) ++ [KCollectionDetail])%list).
  unfold step at 1, answered.
  change (pending (step (Click BtnBack) (run [CategoryClick A; CollectionClick B]
            (mkWorld (mkState tr cl cn sc pl ld []) d a t ts nt st p rq to co))))
    with (((p ++ [KCollections]) ++ [KCollectionDetail]) ++ [KCollections])%list.
  rewrite nth_error_newest. reflexivity.
Qed.

Lemma back_returns_to_category_witness :
  browseStack (state (run [CategoryClick parties; CollectionClick assembly; Click BtnBack]
                          (openBrowse (fresh blank))))
    = [FCategory "parties"].
Proof.
  destruct (back_returns_to_category (openBrowse (fresh blank)) parties assembly eq_refl)
    as (_ & H & _).
  exact H.
Defined.

(** C7: [browseBack] removes the last frame and nothing else; on an empty
    stack it is [loadCategories] and the stack stays empty, and doing it
    again changes neither [state] nor the page. *)
Theorem back_pops_one_frame (w : World) :
  browseStack (state (browseBack w)) = removelast (browseStack (state w)) /\
  List.length (browseStack (state (browseBack w)))
    = Nat.pred (List.length (browseStack (state w))) /\
  (forall l f, browseStack (state w) = (l ++ [f])%list ->
               browseStack (state (browseBack w)) = l) /\
  (browseStack (state w) = [] ->
     browseBack w = loadCategories w /\
     browseStack (state (browseBack w)) = [] /\
     state (browseBack (browseBack w)) = state (browseBack w) /\
     same_page (dom (browseBack w)) (dom (browseBack (browseBack w)))).
Proof.
  assert (Hpop : browseStack (state (browseBack w)) = removelast (browseStack (state w))).
  { unfold browseBack.
    destruct (top (browseStack (state (pop w)))) as [[name | id name] |];
      reflexivity. }
  split; [exact Hpop |]. split; [| split].
  - rewrite Hpop.
    destruct (browseStack (state w)) as [|x l] using rev_ind; [reflexivity |].
    rewrite removelast_last, length_app. simpl. lia.
  - intros l f Hl. rewrite Hpop, Hl. apply removelast_last.
  - intros Hroot.
    assert (Hsame : pop w = w).
    { unfold pop, with_state, set_browseStack. rewrite Hroot. simpl.
      destruct w as [s ? ? ? ? ? ? ? ? ? ?]. destruct s. simpl in *.
      subst. reflexivity. }
    assert (Hb : forall v, browseStack (state v) = [] -> browseBack v = loadCategories v).
    { intros v Hv. unfold browseBack.
      assert (Hv' : pop v = v).
      { unfold pop, with_state, set_browseStack. rewrite Hv. simpl.
        destruct v as [s ? ? ? ? ? ? ? ? ? ?]. destruct s. simpl in *.
        subst. reflexivity. }
      rewrite Hv', Hv. reflexivity. }
    rewrite (Hb w Hroot).
    assert (Hroot' : browseStack (state (loadCategories w)) = []) by exact Hroot.
    rewrite (Hb _ Hroot').
    repeat split; try assumption; try reflexivity.
    + intros e. destruct e; reflexivity.
    + intros e p. destruct e, p; reflexivity.
    + intros e. destruct e; reflexivity.
Qed.

Lemma back_pops_one_frame_witness :
  browseStack (state (browseBack deep_world)) = [FCategory "parties"] /\
  browseBack (fresh blank) = loadCategories (fresh blank).
Proof.
  split.
  - exact (proj1 (proj2 (proj2 (back_pops_one_frame deep_world)))
             [FCategory "parties"] (FCollection 5 "assembly") eq_refl).
  - exact (proj1 (proj2 (proj2 (proj2 (back_pops_one_frame (fresh blank)))) eq_refl)).
Defined.

(** ** Empty answers *)

(** C8, evaluated on the code: an empty collection list is replaced by the
    "No collections found" row, whereas an empty category list and an empty
    track list leave [#browseList] without any row. *)
Theorem empty_answer_rendering (w : World) :
  (exists w', loadCollections_then (CollectionList []) w = Some w' /\
              content (dom w') BrowseList = [ItemNoCollections]) /\
  (exists w', loadCategories_then (CategoryList []) w = Some w' /\
              content (dom w') BrowseList = []) /\
  (exists w', loadCollectionDetail_then (Detail []) w = Some w' /\
              content (dom w') BrowseList = []).
Proof.
  repeat split; eexists; split; reflexivity.
Qed.

(** ** The clock of the seek bar *)

Lemma padStart_two_digits (z : Z) :
  0 <= z < 60 -> Js.padStart 2 "0" (Js.toString z) = two_digits z.
Proof.
  intros Hz.
  assert (Hall : forallb (fun n => String.eqb
                   (Js.padStart 2 "0" (Js.toString (Z.of_nat n)))
                   (two_digits (Z.of_nat n))) (seq 0 60) = true)
    by (vm_compute; reflexivity).
  rewrite forallb_forall in Hall.
  specialize (Hall (Z.to_nat z)).
  rewrite Z2Nat.id in Hall by lia.
  apply String.eqb_eq, Hall, in_seq. lia.
Qed.

Lemma Qfloor_div60 (q : Q) : Qfloor (q / 60) = Qfloor q / 60.
Proof.
  destruct q as [n d]. unfold Qfloor, Qdiv, Qmult, Qinv. simpl.
  rewrite Z.mul_1_r, Pos2Z.inj_mul. symmetry. apply Z.div_div; lia.
Qed.

Lemma Qfloor_mod60 (q : Q) : Qfloor (Qmod60 q) = Qfloor q mod 60.
Proof.
  unfold Qmod60. rewrite Qfloor_div60.
  destruct q as [n d]. unfold Qfloor at 2 3.
  set (k := n / Z.pos d / 60).
  unfold Qfloor, Qminus, Qplus, Qopp, Qmult, inject_Z. cbn [Qnum Qden].
  change (1 * 1)%positive with 1%positive.
  rewrite Pos.mul_1_r. change (Z.pos 1) with 1. rewrite Z.mul_1_r.
  rewrite Z.div_add by lia.
  unfold k. pose proof (Z.div_mod (n / Z.pos d) 60). lia.
Qed.

Lemma Qtrunc_nonneg (x : Q) : (0 <= x)%Q -> Js.Qtrunc x = Qfloor x.
Proof.
  intros H. unfold Js.Qtrunc. apply Qle_bool_iff in H. now rewrite H.
Qed.

Lemma Qdiv60_nonneg (q : Q) : (0 <= q)%Q -> (0 <= q / 60)%Q.
Proof.
  intros H. apply Qle_shift_div_l; [reflexivity |].
  now rewrite Qmult_0_l.
Qed.



(** ** The art placeholder colour *)

Lemma to_int32_congr (z : Z) : exists k, Js.to_int32 z = z + k * 2^32.
Proof.
  unfold Js.to_int32. exists (- ((z + 2^31) / 2^32)).
  pose proof (Z.div_mod (z + 2^31) (2^32)). lia.
Qed.

Lemma to_int32_of_congr (a b k : Z) :
  a = b + k * 2^32 -> Js.to_int32 a = Js.to_int32 b.
Proof.
  intros ->. unfold Js.to_int32.
  replace (b + k * 2^32 + 2^31) with (b + 2^31 + k * 2^32) by ring.
  now rewrite Z.mod_add by lia.
Qed.

Lemma to_int32_range (z : Z) : - 2^31 <= Js.to_int32 z < 2^31.
Proof.
  unfold Js.to_int32. pose proof (Z.mod_pos_bound (z + 2^31) (2^32)). lia.
Qed.

Lemma hash_units_congr (units : list Z) :
  forall h h32, (exists k, h = h32 + k * 2^32) ->
  exists k, fold_left hash_step units h
            = fold_left Spec32.hash_step units h32 + k * 2^32.
Proof.
  induction units as [|c units IH]; intros h h32 [k Hk]; simpl.
  - now exists k.
  - apply IH. unfold Spec32.hash_step, hash_step, Js.shl.
    rewrite (to_int32_of_congr h h32 k Hk).
    destruct (to_int32_congr
                (c + (Js.to_int32 (Z.shiftl (Js.to_int32 h32) 5) - h32))) as [j Hj].
    exists (- k - j). lia.
Qed.

Lemma hash_units_bound (units : list Z) :
  Forall (fun c => 0 <= c < 2^16) units ->
  forall h, Z.abs (fold_left hash_step units h)
            <= Z.abs h + Z.of_nat (List.length units) * (2^31 + 2^16).
Proof.
  induction 1 as [|c units Hc _ IH]; intros h.
  - simpl. lia.
  - cbn [fold_left List.length]. specialize (IH (hash_step h c)).
    assert (Z.abs (hash_step h c) <= Z.abs h + (2^31 + 2^16)).
    { unfold hash_step, Js.shl.
      pose proof (to_int32_range (Z.shiftl (Js.to_int32 h) 5)). lia. }
    lia.
Qed.

Lemma charCodes_units (name : string) :
  Forall (fun c => 0 <= c < 2^16) (Js.charCodes name) /\
  List.length (Js.charCodes name) = String.length name.
Proof.
  induction name as [|c name [IH1 IH2]]; cbn [Js.charCodes List.length String.length].
  - split; [constructor | reflexivity].
  - split; [| now rewrite IH2]. constructor; [| exact IH1].
    unfold Js.charCode. pose proof (N_ascii_bounded c). lia.
Qed.

(** The number held in [hash] is an integer below 2^53 in magnitude, hence
    exact in double precision, for every name of up to 2^21 characters. *)
Lemma name_hash_exact (name : string) :
  (String.length name <= 2 ^ 21)%nat -> Z.abs (name_hash name) < 2^53.
Proof.
  intros Hlen. destruct (charCodes_units name) as [Hu Hl].
  pose proof (hash_units_bound _ Hu 0) as Hb. rewrite Hl in Hb.
  unfold name_hash, hash_units.
  assert (Z.of_nat (String.length name) <= 2^21).
  { apply Nat2Z.inj_le in Hlen. rewrite Nat2Z.inj_pow in Hlen. exact Hlen. }
  change (Z.abs 0) with 0 in Hb. nia.
Qed.

(** For the name [demoscene] the hash leaves the 32-bit range and the hue
    is not the one 32-bit arithmetic gives. *)
Lemma placeholder_hue_not_32bit :
  name_hash "demoscene" = 5109076105 /\
  placeholder_hue "demoscene" = 25 /\
  Spec32.placeholder_hue "demoscene" = 129 /\
  placeholder_hue "demoscene" <> Spec32.placeholder_hue "demoscene".
Proof.
  repeat split; try (vm_compute; reflexivity).
  vm_compute. discriminate.
Qed.

(** C10, as the code has it: the hue lies in [0, 360) for every name
    (whatever its code units) and depends on nothing but the name, so the gradient written to [#artBox]
    is the same in every world.  Of the hash only the shift is a 32-bit
    operation: the number is congruent modulo 2^32 to the hash computed in
    32-bit arithmetic, but it is not reduced to 32 bits before the absolute
    value and the remainder are taken. *)
Theorem placeholder_hue_range (name : string) :
  0 <= placeholder_hue name < 360 /\
  (forall units : list Z, 0 <= hue_of (hash_units units) < 360) /\
  (forall w1 w2 : World,
     style (dom (setPlaceholderColor name w1)) ArtBox background
       = gradient (placeholder_hue name) /\
     style (dom (setPlaceholderColor name w2)) ArtBox background
       = style (dom (setPlaceholderColor name w1)) ArtBox background) /\
  (name_hash name) mod 2^32 = (Spec32.name_hash name) mod 2^32.
Proof.
  split; [| split; [| split]].
  - unfold placeholder_hue, hue_of. apply Z.rem_bound_pos; lia.
  - intros units. unfold hue_of. apply Z.rem_bound_pos; lia.
  - intros w1 w2. split; reflexivity.
  - unfold name_hash, Spec32.name_hash, hash_units, Spec32.hash_units.
    destruct (hash_units_congr (Js.charCodes name) 0 0) as [k Hk].
    + exists 0. reflexivity.
    + rewrite Hk. apply Z.mod_add. lia.
Qed.

(** ** One transition at a time *)

Lemma filter_remove_nth {A} (f : A -> bool) (l : list A) :
  forall i k, nth_error l i = Some k ->
  List.length (filter f l)
    = (List.length (filter f (remove_nth i l)) + (if f k then 1 else 0))%nat.
Proof.
  induction l as [|x l IH]; intros [|i] k H; simpl in H; try discriminate.
  - injection H as ->. simpl. destruct (f k); simpl; lia.
  - simpl. specialize (IH i k H). destruct (f x); simpl; lia.
Qed.

Lemma in_flight_api (m : Method) (u : Url) (k : Cont) (w : World) :
  in_flight (api m u k w)
    = (in_flight w + (if is_transition k then 1 else 0))%nat.
Proof.
  unfold in_flight, api. simpl. rewrite filter_app, length_app. simpl.
  destruct (is_transition k); reflexivity.
Qed.

Lemma flag_view_api (m : Method) (u : Url) (k : Cont) (w : World) :
  is_transition k = false -> flag_view (api m u k w) = flag_view w.
Proof.
  intros H. unfold flag_view. rewrite in_flight_api, H, Nat.add_0_r. reflexivity.
Qed.

Lemma Serialized_view (w w' : World) :
  flag_view w' = flag_view w -> Serialized w -> Serialized w'.
Proof.
  unfold flag_view, Serialized. intros H. injection H as -> ->. tauto.
Qed.

Lemma Serialized_idle (w : World) : in_flight w = 0%nat -> Serialized w.
Proof.
  unfold Serialized. intros ->. split; [lia | discriminate].
Qed.

(** Setting the flag never harms. *)
Lemma Serialized_loading (w w' : World) :
  in_flight w' = in_flight w -> isLoading (state w') = true ->
  Serialized w -> Serialized w'.
Proof.
  unfold Serialized. intros -> Hl [Hle _]. split; [exact Hle | intros _; exact Hl].
Qed.

Lemma flag_view_loadArt (c : option Collection) (w : World) :
  flag_view (loadArt c w) = flag_view w.
Proof.
  unfold loadArt. destruct c as [col |]; [destruct (has_art col) |]; reflexivity.
Qed.

Lemma flag_view_applyPlayerState (d : PlayerData) (w : World) :
  flag_view (applyPlayerState d w) = flag_view w.
Proof.
  unfold applyPlayerState. destruct (d_track d); [| reflexivity].
  rewrite flag_view_loadArt. reflexivity.
Qed.

Lemma flag_view_showToast (msg : string) (w : World) :
  flag_view (showToast msg w) = flag_view w.
Proof. reflexivity. Qed.

Lemma flag_view_loadCategories (w : World) :
  flag_view (loadCategories w) = flag_view w.
Proof. unfold loadCategories. now rewrite flag_view_api. Qed.

Lemma flag_view_loadCollections (c : string) (q : option string) (w : World) :
  flag_view (loadCollections c q w) = flag_view w.
Proof. unfold loadCollections. now rewrite flag_view_api. Qed.

Lemma flag_view_loadCollectionDetail (id : Z) (n : string) (w : World) :
  flag_view (loadCollectionDetail id n w) = flag_view w.
Proof. unfold loadCollectionDetail. now rewrite flag_view_api. Qed.

Lemma flag_view_loadCurrent (w : World) : flag_view (loadCurrent w) = flag_view w.
Proof. unfold loadCurrent. now rewrite flag_view_api. Qed.

Lemma flag_view_toggleUpvote (w : World) : flag_view (toggleUpvote w) = flag_view w.
Proof.
  unfold toggleUpvote. destruct (track (state w)) as [t |]; [| reflexivity].
  destruct (t_upvoted t); now rewrite flag_view_api.
Qed.

Lemma flag_view_browseBack (w : World) : flag_view (browseBack w) = flag_view w.
Proof.
  unfold browseBack.
  destruct (top (browseStack (state (pop w)))) as [[name | id name] |].
  - now rewrite flag_view_loadCollections.
  - now rewrite flag_view_loadCollectionDetail.
  - now rewrite flag_view_loadCategories.
Qed.

Lemma flag_view_search_fire (q : string) (w : World) :
  flag_view (search_fire q w) = flag_view w.
Proof.
  unfold search_fire.
  destruct (top (browseStack (state w))) as [[name | id name] |]; try reflexivity.
  now rewrite flag_view_loadCollections.
Qed.

Lemma flag_view_searchInput (text : string) (w : World) :
  flag_view (searchInput_oninput text w) = flag_view w.
Proof.
  unfold searchInput_oninput, clearTimeout. cbn [searchTimeout with_dom].
  destruct (searchTimeout w); reflexivity.
Qed.

(** The guard of [nextTrack] and [prevTrack]. *)
Lemma nextTrack_dropped (w : World) :
  isLoading (state w) = true -> nextTrack w = w.
Proof. intros H. unfold nextTrack. now rewrite H. Qed.

Lemma prevTrack_dropped (w : World) :
  isLoading (state w) = true -> prevTrack w = w.
Proof. intros H. unfold prevTrack. now rewrite H. Qed.

Lemma Serialized_start (m : Method) (u : Url) (k : Cont) (w : World) :
  is_transition k = true ->
  isLoading (state w) = false ->
  Serialized w -> Serialized (api m u k (setLoading true w)).
Proof.
  intros Hk Hl (Hle & Hload).
  assert (Hin : in_flight w = 0%nat).
  { destruct (Nat.eq_dec (in_flight w) 1) as [E |]; [| lia].
    rewrite Hload in Hl by exact E. discriminate. }
  unfold Serialized. rewrite in_flight_api, Hk.
  change (in_flight (setLoading true w)) with (in_flight w).
  rewrite Hin. cbn. split; [lia | reflexivity].
Qed.

Lemma Serialized_nextTrack (w : World) : Serialized w -> Serialized (nextTrack w).
Proof.
  intros H. unfold nextTrack. destruct (isLoading (state w)) eqn:Hl; [exact H |].
  now apply Serialized_start.
Qed.

Lemma Serialized_prevTrack (w : World) : Serialized w -> Serialized (prevTrack w).
Proof.
  intros H. unfold prevTrack. destruct (isLoading (state w)) eqn:Hl; [exact H |].
  now apply Serialized_start.
Qed.

Lemma in_flight_playTrack (w : World) : in_flight (playTrack w) = in_flight w.
Proof. unfold playTrack. destruct (track (state w)); reflexivity. Qed.

Lemma Serialized_resume (k : Cont) (a : Answer) (w w' : World) :
  (in_flight w + (if is_transition k then 1 else 0) <= 1)%nat ->
  (is_transition k = false -> Serialized w) ->
  resume k a w = Some w' -> Serialized w'.
Proof.
  intros Hle Hs Hr.
  destruct k; cbn [is_transition] in *.
  - (* loadCurrent *)
    destruct a; try discriminate Hr; injection Hr as <-.
    + now apply (Serialized_view w); auto.
    + apply (Serialized_view w); auto. apply flag_view_applyPlayerState.
  - (* nextTrack *)
    assert (Hin : in_flight w = 0%nat) by lia.
    destruct a; try discriminate Hr; injection Hr as <-.
    + apply Serialized_idle. exact Hin.
    + pose proof (flag_view_applyPlayerState d w) as Hv.
      unfold flag_view in Hv. injection Hv as Hv1 Hv2.
      apply Serialized_idle. rewrite in_flight_playTrack. congruence.
  - (* prevTrack *)
    assert (Hin : in_flight w = 0%nat) by lia.
    destruct a; try discriminate Hr; injection Hr as <-.
    + apply Serialized_idle. exact Hin.
    + pose proof (flag_view_applyPlayerState d w) as Hv.
      unfold flag_view in Hv. injection Hv as Hv1 Hv2.
      apply Serialized_idle. rewrite in_flight_playTrack. congruence.
  - (* toggleUpvote *)
    injection Hr as <-. apply (Serialized_view w); auto.
    unfold toggleUpvote_then.
    destruct a, (track (state w)); reflexivity.
  - destruct a; try discriminate Hr; injection Hr as <-;
      now apply (Serialized_view w); auto.
  - destruct a as [| | | [|c cols] | |]; try discriminate Hr; injection Hr as <-;
      now apply (Serialized_view w); auto.
  - destruct a; try discriminate Hr; injection Hr as <-;
      now apply (Serialized_view w); auto.
Qed.

Lemma Serialized_answered (i : nat) (a : Answer) (w : World) :
  Serialized w -> Serialized (answered i a w).
Proof.
  intros H. unfold answered.
  destruct (nth_error (pending w) i) as [k |] eqn:Hn; [| exact H].
  destruct (resume k a _) as [w' |] eqn:Hr; [| exact H].
  pose proof (filter_remove_nth is_transition (pending w) i k Hn) as Hlen.
  fold (in_flight w) in Hlen.
  set (w0 := set_pending (remove_nth i (pending w)) w) in *.
  change (List.length (filter is_transition (remove_nth i (pending w))))
    with (in_flight w0) in Hlen.
  destruct H as (Hle & Hload).
  apply (Serialized_resume k a w0 w'); [lia | | exact Hr].
  intros Hk. rewrite Hk in Hlen.
  apply (Serialized_view w); [| now split].
  unfold flag_view. f_equal. lia.
Qed.

(** The [canplay] listeners leave the requests alone and clear the flag. *)
Lemma canplay_listeners_run (ok : bool) (ls : list Listener) (w : World) :
  in_flight (fold_right (fun l v => onCanPlay l ok v) w ls) = in_flight w /\
  (ls <> [] ->
   isLoading (state (fold_right (fun l v => onCanPlay l ok v) w ls)) = false).
Proof.
  induction ls as [|l ls [IH1 IH2]]; [split; [reflexivity | congruence] |].
  cbn [fold_right].
  set (v := fold_right (fun l v => onCanPlay l ok v) w ls) in *.
  split.
  - rewrite <- IH1. destruct ok, l; reflexivity.
  - intros _. destruct ok, l; reflexivity.
Qed.

Lemma canplay_event_flag (ok : bool) (w : World) :
  in_flight (canplay_event ok w) = in_flight w /\
  (canplay (audio w) <> 0%nat -> isLoading (state (canplay_event ok w)) = false) /\
  (canplay (audio w) = 0%nat -> canplay_event ok w = w).
Proof.
  unfold canplay_event, canplay.
  destruct (canplay_listeners_run ok (listeners (audio w)) w) as [H1 H2].
  split; [exact H1 |]. split.
  - intros N. apply H2. intros E. rewrite E in N. now apply N.
  - intros E. destruct (listeners (audio w)); [reflexivity | discriminate E].
Qed.

Lemma Serialized_canplay (ok : bool) (w : World) :
  canplay (audio w) = 0%nat \/ in_flight w = 0%nat ->
  Serialized w -> Serialized (canplay_event ok w).
Proof.
  intros Hq H. destruct (canplay_event_flag ok w) as (H1 & _ & H3).
  destruct Hq as [E | E].
  - now rewrite H3.
  - apply Serialized_idle. now rewrite H1.
Qed.

(** A track loaded without a request sets the flag, as [playTrack] does
    when the play button finds no stream; the other branches of
    [togglePlay] leave the flag alone. *)
Lemma Serialized_togglePlay (w : World) : Serialized w -> Serialized (togglePlay w).
Proof.
  intros H. unfold togglePlay.
  destruct (track (state w)) as [t |] eqn:Ht; [| now apply Serialized_nextTrack].
  destruct (paused (audio w)); [| now apply (Serialized_view w)].
  destruct (src (audio w)); [now apply (Serialized_view w) |].
  unfold playTrack. rewrite Ht.
  now apply (Serialized_loading w).
Qed.

Lemma Serialized_trackItem_click (t : Track) (w : World) :
  Serialized w -> Serialized (trackItem_click t w).
Proof. now apply (Serialized_loading w). Qed.

Lemma Serialized_run_timer (a : TimerAction) (w : World) :
  Serialized w -> Serialized (run_timer a w).
Proof.
  intros H. destruct a; cbn [run_timer].
  - apply (Serialized_view w); [apply flag_view_loadCurrent | exact H].
  - now apply Serialized_nextTrack.
  - apply (Serialized_view w); [apply flag_view_search_fire | exact H].
  - exact H.
  - destruct (track (state w)); [exact H |].
    apply (Serialized_view w); [apply flag_view_loadCurrent | exact H].
Qed.

Lemma Serialized_timers (l : list Timer) :
  forall w, Serialized w ->
  Serialized (fold_left (fun w x => run_timer (action x) w) l w).
Proof.
  induction l as [|x l IH]; intros w H; simpl; [exact H |].
  apply IH, Serialized_run_timer, H.
Qed.

Lemma serial_cases (e : Event) (w : World) :
  serial e w = true -> clears_flag e w = false \/ in_flight w = 0%nat.
Proof.
  unfold serial. intros H. apply orb_true_iff in H. destruct H as [H | H].
  - left. now apply negb_true_iff.
  - right. now apply Nat.eqb_eq.
Qed.

Lemma Serialized_step (e : Event) (w : World) :
  serial e w = true -> Serialized w -> Serialized (step e w).
Proof.
  intros He H. apply serial_cases in He. destruct e; cbn [step].
  - destruct b; cbn [click].
    + now apply Serialized_togglePlay.
    + now apply Serialized_nextTrack.
    + now apply Serialized_prevTrack.
    + apply (Serialized_view w); [apply flag_view_toggleUpvote | exact H].
    + apply (Serialized_view w); [| exact H].
      unfold openBrowse. now rewrite flag_view_loadCategories.
    + exact H.
    + exact H.
    + apply (Serialized_view w); [apply flag_view_browseBack | exact H].
  - unfold keydown.
    destruct (String.eqb code "Space"); [now apply Serialized_togglePlay |].
    destruct (String.eqb code "ArrowRight"); [now apply Serialized_nextTrack |].
    destruct (String.eqb code "ArrowLeft"); [now apply Serialized_prevTrack |].
    destruct (String.eqb code "KeyU"); [| exact H].
    apply (Serialized_view w); [apply flag_view_toggleUpvote | exact H].
  - exact H.
  - apply (Serialized_view w); [| exact H].
    unfold categoryItem_click. now rewrite flag_view_loadCollections.
  - apply (Serialized_view w); [| exact H].
    unfold collectionItem_click. now rewrite flag_view_loadCollectionDetail.
  - now apply Serialized_trackItem_click.
  - apply (Serialized_view w); [apply flag_view_searchInput | exact H].
  - now apply Serialized_answered.
  - apply Serialized_canplay; [| exact H]. cbn [clears_flag] in He.
    destruct He as [He | He]; [left | now right].
    apply negb_false_iff in He. now apply Nat.eqb_eq.
  - apply Serialized_canplay; [| exact H]. cbn [clears_flag] in He.
    destruct He as [He | He]; [left | now right].
    apply negb_false_iff in He. now apply Nat.eqb_eq.
  - unfold audio_onended. apply Serialized_nextTrack.
    apply (Serialized_view w); [reflexivity | exact H].
  - destruct He as [He | He]; [discriminate He |].
    apply Serialized_idle. exact He.
  - apply (Serialized_view w); [| exact H].
    unfold artImg_onerror. destruct (img_onerror (dom w)); reflexivity.
  - unfold tick. apply Serialized_timers.
    apply (Serialized_view w); [reflexivity | exact H].
Qed.

Lemma Serialized_run (evs : list Event) :
  forall w, serial_run evs w = true -> Serialized w -> Serialized (run evs w).
Proof.
  induction evs as [|e evs IH]; intros w Hs H; [exact H |].
  cbn [serial_run] in Hs. apply andb_true_iff in Hs. destruct Hs as [He Hs].
  cbn [run fold_left]. apply IH; [exact Hs |].
  now apply Serialized_step.
Qed.

Lemma Serialized_init (d : Dom) : Serialized (init d).
Proof. apply Serialized_idle. reflexivity. Qed.

(** What an event that is not serial leaves behind: the request still
    unanswered and the flag cleared. *)
Lemma flag_cleared_in_flight (e : Event) (w : World) :
  serial e w = false ->
  in_flight (step e w) = in_flight w /\ isLoading (state (step e w)) = false.
Proof.
  unfold serial. intros H. apply orb_false_iff in H. destruct H as [H _].
  apply negb_false_iff in H.
  destruct e; cbn [clears_flag] in H; try discriminate H; cbn [step].
  - destruct (canplay_event_flag true w) as (H1 & H2 & _).
    split; [exact H1 | apply H2].
    apply negb_true_iff, Nat.eqb_neq in H. exact H.
  - destruct (canplay_event_flag false w) as (H1 & H2 & _).
    split; [exact H1 | apply H2].
    apply negb_true_iff, Nat.eqb_neq in H. exact H.
  - split; reflexivity.
Qed.

(** A media error while the request of [nextTrack] is out: the flag is
    cleared, the delayed [nextTrack] passes the guard, and two requests of
    [nextTrack] are unanswered at once. *)
Lemma second_transition_after_media_error :
  pending (run broken_stream (init blank)) = [KNextTrack; KNextTrack] /\
  in_flight (run broken_stream (init blank)) = 2%nat /\
  ~ (in_flight (run broken_stream (init blank)) <= 1)%nat.
Proof.
  assert (H : pending (run broken_stream (init blank)) = [KNextTrack; KNextTrack])
    by (vm_compute; reflexivity).
  unfold in_flight. rewrite H. cbn. repeat split. lia.
Qed.

(** The same through a [canplay] listener that was bound, by the play
    button or by a track row, while the request was out. *)
Lemma second_transition_after_direct_load :
  in_flight (run play_during_request (init blank)) = 2%nat /\
  in_flight (run row_during_request (init blank)) = 2%nat.
Proof.
  split; vm_compute; reflexivity.
Qed.

(** C1, as the code has it: while [isLoading] is set, [nextTrack] and
    [prevTrack] return the world they were given (no request, no change of
    state, nothing queued), however often they are called.  From page load
    on, along every run in which no media error and no [canplay] listener
    clears the flag while a request of [nextTrack] or [prevTrack] is
    unanswered, at most one such request is unanswered at any time and the
    flag is set while it is.  The condition cannot be dropped: when one
    request is out and an event clears the flag, the next press of the
    next button sends a second one. *)
Theorem loading_flag_serializes :
  (forall w, isLoading (state w) = true ->
     nextTrack w = w /\ prevTrack w = w /\
     forall calls, Forall (fun e => e = Click BtnNext \/ e = Click BtnPrev) calls ->
                   run calls w = w) /\
  (forall d evs, serial_run evs (init d) = true ->
     (in_flight (run evs (init d)) <= 1)%nat /\
     (in_flight (run evs (init d)) = 1%nat ->
        isLoading (state (run evs (init d))) = true)) /\
  (forall w e, in_flight w = 1%nat -> serial e w = false ->
     in_flight (run [e; Click BtnNext] w) = 2%nat /\
     in_flight (run [e; Click BtnPrev] w) = 2%nat).
Proof.
  split; [| split].
  - intros w Hl.
    split; [now apply nextTrack_dropped |].
    split; [now apply prevTrack_dropped |].
    induction 1 as [|e calls [-> | ->] _ IH]; [reflexivity | |]; cbn [run fold_left step click].
    + rewrite nextTrack_dropped by exact Hl. exact IH.
    + rewrite prevTrack_dropped by exact Hl. exact IH.
  - intros d evs Hs.
    exact (Serialized_run evs (init d) Hs (Serialized_init d)).
  - intros w e Hin Hs.
    destruct (flag_cleared_in_flight e w Hs) as [H1 H2].
    cbn [run fold_left]. set (v := step e w) in *. cbn [step click].
    unfold nextTrack, prevTrack. rewrite H2, !in_flight_api.
    change (in_flight (setLoading true v)) with (in_flight v).
    rewrite H1, Hin. split; reflexivity.
Qed.

Lemma loading_flag_serializes_witness :
  run [Click BtnNext; Click BtnPrev; Click BtnNext] loading_world = loading_world /\
  (in_flight (run quiet_run (init blank)) <= 1)%nat /\
  in_flight (run [MediaError; Click BtnNext] loading_world) = 2%nat.
Proof.
  split; [| split].
  - apply (proj2 (proj2 (proj1 loading_flag_serializes loading_world eq_refl))).
    constructor; [now left |]. constructor; [now right |].
    constructor; [now left | constructor].
  - apply (proj1 (proj2 loading_flag_serializes) blank quiet_run).
    vm_compute. reflexivity.
  - exact (proj1 (proj2 (proj2 loading_flag_serializes) loading_world MediaError
                    eq_refl eq_refl)).
Defined.

(** ** Debounced search *)

Lemma search_requests_api (m : Method) (u : Url) (k : Cont) (w : World) :
  search_requests (api m u k w)
    = (search_requests w ++ filter is_search [mkRequest m u])%list.
Proof.
  unfold search_requests, api. cbn [requests set_pending set_requests].
  apply filter_app.
Qed.

Lemma timer_view_nextTrack (w : World) : timer_view (nextTrack w) = timer_view w.
Proof. unfold nextTrack. destruct (isLoading (state w)); reflexivity. Qed.

Lemma search_requests_nextTrack (w : World) :
  search_requests (nextTrack w) = search_requests w.
Proof.
  unfold nextTrack. destruct (isLoading (state w)); [reflexivity |].
  rewrite search_requests_api. cbn. apply app_nil_r.
Qed.

Lemma search_requests_loadCurrent (w : World) :
  search_requests (loadCurrent w) = search_requests w.
Proof.
  unfold loadCurrent. rewrite search_requests_api. cbn. apply app_nil_r.
Qed.

Lemma run_timer_frame (a : TimerAction) (w : World) :
  timer_view (run_timer a w) = timer_view w /\
  search_requests (run_timer a w)
    = (search_requests w ++ fired_search (browseStack (state w)) (mkTimer 0 0 a))%list.
Proof.
  destruct a; cbn [run_timer fired_search action].
  - split; [reflexivity |]. rewrite search_requests_loadCurrent. now rewrite app_nil_r.
  - split; [apply timer_view_nextTrack |].
    rewrite search_requests_nextTrack. now rewrite app_nil_r.
  - unfold search_fire, search_request_for.
    destruct (top (browseStack (state w))) as [[name | id name] |];
      (split; [reflexivity |]); try now rewrite app_nil_r.
    unfold loadCollections. rewrite search_requests_api. reflexivity.
  - split; [reflexivity |]. now rewrite app_nil_r.
  - destruct (track (state w)); (split; [reflexivity |]).
    + now rewrite app_nil_r.
    + rewrite search_requests_loadCurrent. now rewrite app_nil_r.
Qed.

Lemma run_timers_frame (l : list Timer) :
  forall w,
  let w' := fold_left (fun w x => run_timer (action x) w) l w in
  timer_view w' = timer_view w /\
  search_requests w'
    = (search_requests w ++ flat_map (fired_search (browseStack (state w))) l)%list.
Proof.
  induction l as [|x l IH]; intros w; cbn [fold_left flat_map].
  - split; [reflexivity | now rewrite app_nil_r].
  - destruct (run_timer_frame (action x) w) as [Hv Hr].
    destruct (IH (run_timer (action x) w)) as [Hv' Hr'].
    split; [congruence |].
    rewrite Hr', Hr, <- app_assoc.
    assert (Hs : browseStack (state (run_timer (action x) w)) = browseStack (state w))
      by (unfold timer_view in Hv; congruence).
    rewrite Hs. reflexivity.
Qed.

Lemma fired_search_only_search (stack : list Frame) (l : list Timer) :
  flat_map (fired_search stack) l
    = flat_map (fired_search stack) (filter is_search_timer l).
Proof.
  induction l as [|x l IH]; [reflexivity |]. cbn [flat_map filter].
  unfold is_search_timer at 1, fired_search at 1.
  destruct (action x) eqn:Ha; cbn [app flat_map]; try exact IH.
  rewrite IH. unfold fired_search at 2. now rewrite Ha.
Qed.

Lemma filter_swap {A} (p q : A -> bool) (l : list A) :
  filter p (filter q l) = filter q (filter p l).
Proof.
  induction l as [|x l IH]; [reflexivity |]. simpl.
  destruct (p x) eqn:Hp, (q x) eqn:Hq; simpl; rewrite ?Hp, ?Hq, IH; reflexivity.
Qed.

(** What one millisecond does to the search timers. *)
Lemma tick_frame (w : World) :
  let t := S (now w) in
  now (tick w) = t /\
  searchTimeout (tick w) = searchTimeout w /\
  browseStack (state (tick w)) = browseStack (state w) /\
  search_timers (tick w) = filter (fun x => negb (is_due t x)) (search_timers w) /\
  search_requests (tick w)
    = (search_requests w
       ++ flat_map (fired_search (browseStack (state w)))
                   (filter (is_due t) (search_timers w)))%list.
Proof.
  intros t. unfold tick. fold t.
  set (ready := filter (is_due t) (timers w)).
  set (later := filter (fun x => negb (is_due t x)) (timers w)).
  destruct (run_timers_frame ready (set_timers later (set_now t w))) as [Hv Hr].
  cbv zeta in Hv, Hr. unfold timer_view in Hv.
  cbn [timers now searchTimeout state browseStack set_timers set_now] in Hv.
  injection Hv as H1 H2 H3 H4.
  repeat split; try assumption.
  - unfold search_timers. rewrite H1. unfold later. apply filter_swap.
  - rewrite Hr. f_equal.
    cbn [state set_timers set_now].
    rewrite fired_search_only_search. unfold ready, search_timers.
    now rewrite filter_swap.
Qed.

Lemma tick_single (w : World) (id t0 : nat) (q : string) :
  search_timers w = [mkTimer id t0 (TSearch q)] ->
  now (tick w) = S (now w) /\
  searchTimeout (tick w) = searchTimeout w /\
  browseStack (state (tick w)) = browseStack (state w) /\
  (if (t0 <=? S (now w))%nat
   then search_timers (tick w) = [] /\
        search_requests (tick w)
          = (search_requests w ++ search_request_for (browseStack (state w)) q)%list
   else search_timers (tick w) = search_timers w /\
        search_requests (tick w) = search_requests w).
Proof.
  intros Hs.
  destruct (tick_frame w) as (Hn & Hto & Hst & Htm & Hrq).
  rewrite Hs in Htm, Hrq. cbn [filter] in Htm, Hrq.
  unfold is_due in Htm, Hrq. cbn [due] in Htm, Hrq.
  repeat split; try assumption.
  destruct (t0 <=? S (now w))%nat; cbn in Htm, Hrq.
  - rewrite app_nil_r in Hrq. now split.
  - rewrite app_nil_r in Hrq. rewrite Hs. now split.
Qed.

Lemma tick_disarmed (w : World) :
  search_timers w = [] ->
  search_timers (tick w) = [] /\
  browseStack (state (tick w)) = browseStack (state w) /\
  search_requests (tick w) = search_requests w.
Proof.
  intros Hs.
  destruct (tick_frame w) as (Hn & Hto & Hst & Htm & Hrq).
  rewrite Hs in Htm, Hrq. cbn in Htm, Hrq. rewrite app_nil_r in Hrq.
  now repeat split.
Qed.

Lemma single_timer_tracked (w : World) (x : Timer) :
  search_timers w = [x] -> searchTimeout w = Some (tid x) -> debounce_tracked w.
Proof.
  intros Hs Hid t Hin Ht.
  assert (Hx : In t (search_timers w)) by (apply filter_In; now split).
  rewrite Hs in Hx. destruct Hx as [<- | []]. exact Hid.
Qed.

Lemma keystroke_arms (text : string) (w : World) :
  debounce_tracked w ->
  let w' := searchInput_oninput text w in
  armed w' (trim text) /\
  browseStack (state w') = browseStack (state w) /\
  search_requests w' = search_requests w.
Proof.
  intros Htr w'.
  set (v := clearTimeout (searchTimeout w)
              (with_dom (set_value BrowseSearchInput text) w)).
  assert (Hclear : search_timers v = []).
  { unfold v, search_timers, clearTimeout. cbn [searchTimeout with_dom].
    destruct (searchTimeout w) as [id |] eqn:Hid; cbn [timers with_dom set_timers].
    - rewrite filter_swap.
      assert (Hnone : forall l, (forall x, In x l -> Nat.eqb (tid x) id = true) ->
                filter (fun x => negb (Nat.eqb (tid x) id)) l = []).
      { induction l as [|x l IH]; intros Hl; [reflexivity |]. simpl.
        rewrite (Hl x) by now left. simpl. apply IH.
        intros y Hy. apply Hl. now right. }
      apply Hnone. intros x Hx. apply filter_In in Hx. destruct Hx as [Hin Hs].
      specialize (Htr x Hin Hs). rewrite Hid in Htr. injection Htr as ->.
      apply Nat.eqb_refl.
    - destruct (filter is_search_timer (timers w)) as [|x l] eqn:Hf; [reflexivity |].
      assert (Hx : In x (filter is_search_timer (timers w))) by (rewrite Hf; now left).
      apply filter_In in Hx. destruct Hx as [Hin Hs].
      specialize (Htr x Hin Hs). rewrite Hid in Htr. discriminate Htr. }
  assert (Hstack : browseStack (state v) = browseStack (state w)).
  { unfold v, clearTimeout. destruct (searchTimeout w); reflexivity. }
  assert (Hreq : search_requests v = search_requests w).
  { unfold v, clearTimeout. destruct (searchTimeout w); reflexivity. }
  change w' with (set_searchTimeout (Some (nextTimer v))
                    (setTimeout (TSearch (trim text)) 300 v)).
  repeat split; try assumption.
  exists (nextTimer v). split; [| reflexivity].
  unfold search_timers in *.
  cbn [timers set_searchTimeout setTimeout set_nextTimer set_timers now].
  rewrite filter_app, Hclear. reflexivity.
Qed.

(** Less than 300 ms after a keystroke its timer is still waiting. *)
Lemma wait_before_due (n : nat) :
  forall w id t0 q,
  search_timers w = [mkTimer id t0 (TSearch q)] ->
  (now w + n < t0)%nat ->
  let w' := wait n w in
  search_timers w' = search_timers w /\
  searchTimeout w' = searchTimeout w /\
  browseStack (state w') = browseStack (state w) /\
  search_requests w' = search_requests w.
Proof.
  induction n as [|n IH]; intros w id t0 q Hs Hlt; cbn [wait].
  - now repeat split.
  - destruct (tick_single w id t0 q Hs) as (Hn & Hto & Hst & Hcase).
    assert (Hdue : (t0 <=? S (now w))%nat = false) by (apply Nat.leb_gt; lia).
    rewrite Hdue in Hcase. destruct Hcase as [Htm Hrq].
    rewrite Hs in Htm.
    destruct (IH (tick w) id t0 q Htm ltac:(lia)) as (H1 & H2 & H3 & H4).
    rewrite Hs. repeat split; congruence.
Qed.

Lemma wait_disarmed (n : nat) :
  forall w, search_timers w = [] ->
  let w' := wait n w in
  search_timers w' = [] /\
  browseStack (state w') = browseStack (state w) /\
  search_requests w' = search_requests w.
Proof.
  induction n as [|n IH]; intros w Hs; cbn [wait]; [now repeat split |].
  destruct (tick_disarmed w Hs) as (Htm & Hst & Hrq).
  destruct (IH (tick w) Htm) as (H1 & H2 & H3).
  repeat split; congruence.
Qed.

(** Once 300 ms have passed the timer has fired, exactly once. *)
Lemma wait_past_due (n : nat) :
  forall w id t0 q,
  search_timers w = [mkTimer id t0 (TSearch q)] ->
  (t0 <= now w + n)%nat -> (0 < n)%nat ->
  let w' := wait n w in
  search_timers w' = [] /\
  browseStack (state w') = browseStack (state w) /\
  search_requests w'
    = (search_requests w ++ search_request_for (browseStack (state w)) q)%list.
Proof.
  induction n as [|n IH]; intros w id t0 q Hs Hle Hpos; cbn [wait]; [lia |].
  destruct (tick_single w id t0 q Hs) as (Hn & Hto & Hst & Hcase).
  destruct (t0 <=? S (now w))%nat eqn:Hdue.
  - destruct Hcase as [Htm Hrq].
    destruct (wait_disarmed n (tick w) Htm) as (H1 & H2 & H3).
    repeat split; congruence.
  - destruct Hcase as [Htm Hrq]. rewrite Hs in Htm.
    apply Nat.leb_gt in Hdue.
    destruct (IH (tick w) id t0 q Htm ltac:(lia) ltac:(lia)) as (H1 & H2 & H3).
    repeat split; congruence.
Qed.

Lemma last_cons_default {A} (l : list A) :
  forall x d, last (x :: l) d = last l x.
Proof.
  induction l as [|y l IH]; intros x d; [reflexivity |].
  change (last (x :: y :: l) d) with (last (y :: l) d).
  now rewrite !IH.
Qed.

Lemma typing_keeps_armed (keys : list (nat * string)) :
  forall w text,
  armed w (trim text) ->
  Forall (fun k => (fst k < 300)%nat) keys ->
  let w' := typing keys w in
  armed w' (trim (final_text text keys)) /\
  browseStack (state w') = browseStack (state w) /\
  search_requests w' = search_requests w.
Proof.
  induction keys as [|[gap txt] keys IH]; intros w text Ha Hgaps; cbn [typing].
  - now repeat split.
  - inversion Hgaps as [|? ? Hgap Hrest]; subst. cbn [fst] in Hgap.
    destruct Ha as (id & Hs & Hid).
    destruct (wait_before_due gap w id (now w + 300) (trim text) Hs ltac:(lia))
      as (H1 & H2 & H3 & H4).
    assert (Htr : debounce_tracked (wait gap w)).
    { apply (single_timer_tracked _ (mkTimer id (now w + 300) (TSearch (trim text)))).
      - congruence.
      - rewrite H2. exact Hid. }
    destruct (keystroke_arms txt (wait gap w) Htr) as (Ha' & Hst' & Hrq').
    destruct (IH _ txt Ha' Hrest) as (Ha'' & Hst'' & Hrq'').
    repeat split; try congruence.
    replace (final_text text ((gap, txt) :: keys)) with (final_text txt keys);
      [exact Ha'' |].
    unfold final_text. cbn [map snd]. symmetry. apply last_cons_default.
Qed.

(** C5: a burst of keystrokes in the search box, each less than 300 ms
    after the one before, followed by 300 ms or more of silence, sends
    exactly one search request if the top frame is a category and none
    otherwise; the request names that category and carries the trimmed text
    of the last keystroke (no [q] when that text is empty); the browse
    stack is as it was. *)
Theorem debounced_search (w : World) (text : string)
    (keys : list (nat * string)) (silence : nat) :
  debounce_tracked w ->
  Forall (fun k => (fst k < 300)%nat) keys ->
  (300 <= silence)%nat ->
  let w' := wait silence (typing keys (searchInput_oninput text w)) in
  search_requests w'
    = (search_requests w
       ++ search_request_for (browseStack (state w))
                             (trim (final_text text keys)))%list /\
  (List.length (search_request_for (browseStack (state w))
                                   (trim (final_text text keys))) <= 1)%nat /\
  (forall name, top (browseStack (state w)) = Some (FCategory name) ->
     search_request_for (browseStack (state w)) (trim (final_text text keys))
       = [mkRequest GET (ApiCollections name
                           (truthy (Some (trim (final_text text keys)))))]) /\
  browseStack (state w') = browseStack (state w) /\
  search_timers w' = [].
Proof.
  intros Htr Hgaps Hsil w'.
  destruct (keystroke_arms text w Htr) as (Ha & Hst & Hrq).
  destruct (typing_keeps_armed keys _ text Ha Hgaps) as ((id & Hs & Hid) & Hst' & Hrq').
  destruct (wait_past_due silence _ id _ _ Hs ltac:(lia) ltac:(lia))
    as (H1 & H2 & H3).
  fold w' in H1, H2, H3.
  repeat split.
  - rewrite H3, Hrq', Hrq, Hst', Hst. reflexivity.
  - unfold search_request_for.
    destruct (top (browseStack (state w))) as [[name | i name] |]; simpl; lia.
  - intros name Htop. unfold search_request_for. now rewrite Htop.
  - congruence.
  - exact H1.
Qed.

Lemma debounced_search_witness :
  search_requests (wait 300 (typing burst (searchInput_oninput "a" browsing_world)))
  = (search_requests browsing_world
     ++ [mkRequest GET (ApiCollections "parties" (Some "assembly"))])%list.
Proof.
  assert (Htr : debounce_tracked browsing_world).
  { intros t Hin Ht. vm_compute in Hin.
    destruct Hin as [<- | [<- | []]]; discriminate Ht. }
  assert (Hgaps : Forall (fun k : nat * string => (fst k < 300)%nat) burst).
  { repeat constructor; cbn [fst]; lia. }
  exact (proj1 (debounced_search browsing_world "a" burst 300 Htr Hgaps
                  (Nat.le_refl 300))).
Defined.

(** [debounce_tracked] holds in every world the page can reach. *)

Lemma debounce_view_setTimeout (a : TimerAction) (delay : nat) (w : World) :
  is_search_timer (mkTimer 0 0 a) = false ->
  debounce_view (setTimeout a delay w) = debounce_view w.
Proof.
  intros Ha. unfold debounce_view, search_timers, setTimeout.
  cbn [timers searchTimeout set_nextTimer set_timers].
  rewrite filter_app. cbn [filter]. unfold is_search_timer in *. cbn [action] in *.
  rewrite Ha. now rewrite app_nil_r.
Qed.

Lemma debounce_view_showToast (msg : string) (w : World) :
  debounce_view (showToast msg w) = debounce_view w.
Proof.
  unfold showToast. now rewrite debounce_view_setTimeout.
Qed.

Lemma debounce_view_nextTrack (w : World) :
  debounce_view (nextTrack w) = debounce_view w.
Proof. unfold nextTrack. destruct (isLoading (state w)); reflexivity. Qed.

Lemma debounce_view_prevTrack (w : World) :
  debounce_view (prevTrack w) = debounce_view w.
Proof. unfold prevTrack. destruct (isLoading (state w)); reflexivity. Qed.

Lemma debounce_view_toggleUpvote (w : World) :
  debounce_view (toggleUpvote w) = debounce_view w.
Proof.
  unfold toggleUpvote. destruct (track (state w)) as [t |]; [| reflexivity].
  destruct (t_upvoted t); reflexivity.
Qed.

Lemma debounce_view_togglePlay (w : World) :
  debounce_view (togglePlay w) = debounce_view w.
Proof.
  unfold togglePlay. destruct (track (state w)) eqn:Ht.
  - destruct (paused (audio w)); [| reflexivity].
    destruct (src (audio w)); [reflexivity |].
    unfold playTrack. rewrite Ht. reflexivity.
  - apply debounce_view_nextTrack.
Qed.

Lemma debounce_view_browseBack (w : World) :
  debounce_view (browseBack w) = debounce_view w.
Proof.
  unfold browseBack.
  destruct (top (browseStack (state (pop w)))) as [[name | id name] |]; reflexivity.
Qed.

Lemma debounce_view_applyPlayerState (d : PlayerData) (w : World) :
  debounce_view (applyPlayerState d w) = debounce_view w.
Proof.
  unfold applyPlayerState. destruct (d_track d); [| reflexivity].
  unfold loadArt. destruct (d_collection d) as [col |]; [destruct (has_art col) |];
    reflexivity.
Qed.

Lemma debounce_view_playTrack (w : World) :
  debounce_view (playTrack w) = debounce_view w.
Proof. unfold playTrack. destruct (track (state w)); reflexivity. Qed.

Lemma debounce_view_resume (k : Cont) (a : Answer) (w w' : World) :
  resume k a w = Some w' -> debounce_view w' = debounce_view w.
Proof.
  intros Hr. destruct k; cbn [resume] in Hr.
  - destruct a; try discriminate Hr; injection Hr as <-.
    + cbv zeta. now rewrite debounce_view_setTimeout.
    + apply debounce_view_applyPlayerState.
  - destruct a; try discriminate Hr; injection Hr as <-.
    + cbv zeta.
      transitivity (debounce_view (showToast "Failed to load next track"
                                     (console_log "Next failed:" w)));
        [reflexivity | now rewrite debounce_view_showToast].
    + now rewrite debounce_view_playTrack, debounce_view_applyPlayerState.
  - destruct a; try discriminate Hr; injection Hr as <-.
    + cbv zeta.
      transitivity (debounce_view (showToast "No previous track" w));
        [reflexivity | now rewrite debounce_view_showToast].
    + now rewrite debounce_view_playTrack, debounce_view_applyPlayerState.
  - injection Hr as <-. unfold toggleUpvote_then.
    destruct a, (track (state w));
      try (now rewrite debounce_view_showToast);
      cbv zeta;
      (etransitivity; [| apply debounce_view_showToast with
                           (msg := if was_upvoted then "Removed from library"
                                   else "Saved to library")]);
      reflexivity.
  - destruct a; try discriminate Hr; injection Hr as <-; reflexivity.
  - destruct a as [| | | [|c cols] | |]; try discriminate Hr; injection Hr as <-;
      reflexivity.
  - destruct a; try discriminate Hr; injection Hr as <-; reflexivity.
Qed.

Lemma debounce_view_canplay (ok : bool) (w : World) :
  debounce_view (canplay_event ok w) = debounce_view w.
Proof.
  unfold canplay_event.
  induction (listeners (audio w)) as [|l ls IH]; [reflexivity |].
  cbn [fold_right]. rewrite <- IH. destruct ok, l; reflexivity.
Qed.

Lemma tracked_of_view (w w' : World) :
  debounce_view w' = debounce_view w -> debounce_tracked w -> debounce_tracked w'.
Proof.
  unfold debounce_view. intros Hv Htr t Hin Ht. injection Hv as Hs Hid.
  assert (Hx : In t (search_timers w')) by (apply filter_In; now split).
  rewrite Hs in Hx. apply filter_In in Hx. destruct Hx as [Hin' _].
  rewrite Hid. now apply Htr.
Qed.

Lemma debounce_tracked_step (e : Event) (w : World) :
  debounce_tracked w -> debounce_tracked (step e w).
Proof.
  intros H.
  assert (by_view : forall w', debounce_view w' = debounce_view w ->
                               debounce_tracked w')
    by (intros w' Hv; now apply (tracked_of_view w)).
  destruct e; cbn [step].
  - apply by_view. destruct b; cbn [click];
      auto using debounce_view_togglePlay, debounce_view_nextTrack,
                 debounce_view_prevTrack, debounce_view_toggleUpvote,
                 debounce_view_browseBack.
  - apply by_view. unfold keydown.
    repeat match goal with |- context [if ?c then _ else _] => destruct c end;
      auto using debounce_view_togglePlay, debounce_view_nextTrack,
                 debounce_view_prevTrack, debounce_view_toggleUpvote.
  - now apply by_view.
  - now apply by_view.
  - now apply by_view.
  - now apply by_view.
  - destruct (keystroke_arms text w H) as ((id & Hs & Hid) & _).
    now apply (single_timer_tracked _ _ Hs).
  - apply by_view.
    unfold answered. destruct (nth_error (pending w) i) as [k |]; [| reflexivity].
    destruct (resume k a _) as [w' |] eqn:Hr; [| reflexivity].
    now rewrite (debounce_view_resume _ _ _ _ Hr).
  - apply by_view, debounce_view_canplay.
  - apply by_view, debounce_view_canplay.
  - apply by_view. unfold audio_onended. now rewrite debounce_view_nextTrack.
  - apply by_view. unfold audio_onerror. cbv zeta.
    rewrite debounce_view_setTimeout by reflexivity.
    now rewrite debounce_view_showToast.
  - apply by_view. unfold artImg_onerror. destruct (img_onerror (dom w)); reflexivity.
  - intros t Hin Ht.
    destruct (tick_frame w) as (_ & Hto & _ & Htm & _).
    assert (Hx : In t (search_timers (tick w))) by (apply filter_In; now split).
    rewrite Htm in Hx. apply filter_In in Hx. destruct Hx as [Hx _].
    apply filter_In in Hx. destruct Hx as [Hx _].
    rewrite Hto. now apply H.
Qed.

Lemma debounce_tracked_reachable (d : Dom) (evs : list Event) :
  debounce_tracked (run evs (init d)).
Proof.
  assert (H0 : debounce_tracked (init d)).
  { intros t Hin Ht. cbn in Hin. destruct Hin as [<- | [<- | []]]; discriminate Ht. }
  revert H0. generalize (init d).
  induction evs as [|e evs IH]; intros w H; [exact H |].
  cbn [run fold_left]. apply IH. now apply debounce_tracked_step.
Qed.

(** * Further properties of the script *)

(** ** How properties travel through the event machinery *)

Lemma answered_invariant (P : World -> Prop) :
  (forall l w, P w -> P (set_pending l w)) ->
  (forall k a w w', P w -> resume k a w = Some w' -> P w') ->
  forall i a w, P w -> P (answered i a w).
Proof.
  intros Hp Hr i a w H. unfold answered.
  destruct (nth_error (pending w) i) as [k |]; [| exact H].
  destruct (resume k a _) as [w' |] eqn:E; [| exact H].
  eapply Hr; [| exact E]. apply Hp, H.
Qed.

Lemma timers_invariant (P : World -> Prop) :
  (forall a w, P w -> P (run_timer a w)) ->
  forall l w, P w -> P (fold_left (fun w x => run_timer (action x) w) l w).
Proof.
  intros Hr l. induction l as [|x l IH]; intros w H; [exact H |].
  cbn [fold_left]. apply IH, Hr, H.
Qed.

Lemma tick_invariant (P : World -> Prop) :
  (forall t l w, P w -> P (set_timers l (set_now t w))) ->
  (forall a w, P w -> P (run_timer a w)) ->
  forall w, P w -> P (tick w).
Proof.
  intros Hc Hr w H. unfold tick. apply timers_invariant; [exact Hr |].
  apply Hc, H.
Qed.

Lemma listeners_invariant (P : World -> Prop) :
  (forall l ok w, P w -> P (onCanPlay l ok w)) ->
  forall ok ls w, P w -> P (fold_right (fun l v => onCanPlay l ok v) w ls).
Proof.
  intros Hc ok ls w H. induction ls as [|l ls IH]; [exact H |].
  cbn [fold_right]. apply Hc, IH.
Qed.

Lemma canplay_invariant (P : World -> Prop) :
  (forall l ok w, P w -> P (onCanPlay l ok w)) ->
  forall ok w, P w -> P (canplay_event ok w).
Proof.
  intros Hc ok w H. unfold canplay_event. now apply listeners_invariant.
Qed.

Lemma run_invariant (ok : Event -> bool) (P : World -> Prop) :
  (forall e w, ok e = true -> P w -> P (step e w)) ->
  forall evs w, Forall (fun e => ok e = true) evs -> P w -> P (run evs w).
Proof.
  intros Hs evs. induction evs as [|e evs IH]; intros w Hok H; [exact H |].
  inversion Hok; subst. cbn [run fold_left]. apply IH; [assumption |].
  now apply Hs.
Qed.

Ltac open_handlers :=
  unfold click, keydown, togglePlay, audio_onended, audio_onerror,
    artImg_onerror, run_timer, search_fire, trackItem_click,
    categoryItem_click, collectionItem_click, openBrowse, closeBrowse,
    browseBack, searchInput_oninput, toggleUpvote, toggleUpvote_then,
    nextTrack, prevTrack, loadCurrent, playSpecificTrack, playTrack,
    loadCategories, loadCollections, loadCollectionDetail, hideToast,
    clearTimeout, applyPlayerState, loadArt, onCanPlay, play_rejected in *.

Ltac fields :=
  cbn [state dom audio now timers nextTimer searchTimeout pending requests
       toasts console track collection categoryName scope isPlaying
       isLoading browseStack content style classList value img_src
       img_onerror src paused listeners canplay List.length with_state
       with_dom with_audio
       set_now set_timers set_nextTimer set_searchTimeout set_pending
       set_requests set_toasts set_console set_track set_collection
       set_categoryName set_scope set_isPlaying set_isLoading
       set_browseStack set_content set_style set_class set_value
       set_img_src set_img_onerror api setTimeout console_log setLoading
       updatePlayBtn updateHeart setPlaceholderColor show_placeholder
       showToast audio_load audio_play audio_pause audio_unbind push pop
       Elem_eqb StyleProp_eqb andb String.eqb Ascii.eqb Bool.eqb]
    in *.

(** Case analysis on the conditions of a handler, innermost first. *)
Ltac split_cases :=
  fields;
  repeat (match goal with
          | |- context [match ?x with _ => _ end] =>
              lazymatch x with
              | context [match _ with _ => _ end] => fail
              | _ => destruct x eqn:?
              end
          end; fields).

Ltac resume_cases k a Hr :=
  destruct k; destruct a as [| ? | ? | [| ? ?] | ? |];
  cbn [resume loadCurrent_then nextTrack_then prevTrack_then
       loadCategories_then loadCollections_then loadCollectionDetail_then] in Hr;
  try discriminate Hr; injection Hr as <-.

Ltac frame := open_handlers; split_cases; try reflexivity; try assumption;
              try congruence.

(** ** The track, the scope and the browse stack *)

Lemma has_track_resume (k : Cont) (a : Answer) (w w' : World) :
  track (state w) <> None -> resume k a w = Some w' -> track (state w') <> None.
Proof.
  intros H Hr. resume_cases k a Hr; frame.
Qed.

Lemma has_track_step (e : Event) (w : World) :
  track (state w) <> None -> track (state (step e w)) <> None.
Proof.
  intros H. destruct e; cbn [step].
  - destruct b; frame.
  - frame.
  - exact H.
  - exact H.
  - exact H.
  - frame.
  - frame.
  - apply (answered_invariant (fun w => track (state w) <> None)); auto.
    intros k a0 v v' Hv Hr. exact (has_track_resume k a0 v v' Hv Hr).
  - apply (canplay_invariant (fun w => track (state w) <> None)); auto.
    intros l ok v Hv. frame.
  - apply (canplay_invariant (fun w => track (state w) <> None)); auto.
    intros l ok v Hv. frame.
  - frame.
  - exact H.
  - frame.
  - apply (tick_invariant (fun w => track (state w) <> None)); auto.
    intros a v Hv. destruct a; frame.
Qed.

(** Once a track is held, a track is held for good: nothing in the script
    sets [state.track] back to [null]. *)
Theorem track_never_cleared (evs : list Event) (w : World) :
  track (state w) <> None -> track (state (run evs w)) <> None.
Proof.
  intros H.
  apply (run_invariant (fun _ => true) (fun w => track (state w) <> None)); auto.
  - intros e v _. apply has_track_step.
  - apply Forall_forall. reflexivity.
Qed.

Lemma scope_step (e : Event) (w : World) :
  is_scope_click e = false -> scope (state (step e w)) = scope (state w).
Proof.
  intros He. destruct e; cbn [step]; try discriminate He.
  - destruct b; frame.
  - frame.
  - frame.
  - frame.
  - frame.
  - frame.
  - apply (answered_invariant (fun v => scope (state v) = scope (state w))); auto.
    all: try (intros k a0 v v' Hv Hr; rewrite <- Hv; resume_cases k a0 Hr; frame).
  - apply (canplay_invariant (fun v => scope (state v) = scope (state w))); auto.
    all: try (intros l ok v Hv; rewrite <- Hv; frame).
  - apply (canplay_invariant (fun v => scope (state v) = scope (state w))); auto.
    all: try (intros l ok v Hv; rewrite <- Hv; frame).
  - frame.
  - frame.
  - frame.
  - apply (tick_invariant (fun v => scope (state v) = scope (state w))); auto.
    all: try (intros a v Hv; rewrite <- Hv; destruct a; frame).
Qed.

(** The scope is what the last click on a scope button made it: no other
    event, no answer and no timer changes it, and the next request a
    [nextTrack] sends carries it. *)
Theorem scope_persists (s : string) (evs : list Event) (w : World) :
  Forall (fun e => is_scope_click e = false) evs ->
  let w' := run evs (step (ScopeClick s) w) in
  scope (state w') = s /\
  (isLoading (state w') = false ->
   requests (nextTrack w')
     = (requests w' ++ [mkRequest POST (ApiPlayerNext s)])%list).
Proof.
  intros Hevs w'.
  assert (Hs : scope (state w') = s).
  { unfold w'.
    apply (run_invariant (fun e => negb (is_scope_click e))
             (fun v => scope (state v) = s)).
    - intros e v He Hv. rewrite scope_step; [exact Hv |].
      now apply negb_true_iff.
    - eapply Forall_impl; [| exact Hevs]. intros e He. now rewrite He.
    - reflexivity. }
  split; [exact Hs |].
  intros Hl. unfold nextTrack. rewrite Hl. fields. now rewrite Hs.
Qed.

Lemma scope_persists_witness :
  requests (nextTrack (run [Answered 0 (sample_answer 1); Click BtnMenu]
                           (step (ScopeClick "collection") (init blank))))
  = [mkRequest GET ApiPlayerCurrent; mkRequest GET ApiCategories;
     mkRequest POST (ApiPlayerNext "collection")].
Proof.
  exact (proj2 (scope_persists "collection"
                  [Answered 0 (sample_answer 1); Click BtnMenu] (init blank)
                  ltac:(repeat constructor)) eq_refl).
Defined.

Lemma browseStack_step (e : Event) (w : World) :
  navigates e = false -> browseStack (state (step e w)) = browseStack (state w).
Proof.
  intros He. destruct e; cbn [step]; try discriminate He.
  - destruct b; try discriminate He; frame.
  - frame.
  - frame.
  - frame.
  - frame.
  - apply (answered_invariant
             (fun v => browseStack (state v) = browseStack (state w))); auto.
    all: try (intros k a0 v v' Hv Hr; rewrite <- Hv; resume_cases k a0 Hr; frame).
  - apply (canplay_invariant
             (fun v => browseStack (state v) = browseStack (state w))); auto.
    all: try (intros l ok v Hv; rewrite <- Hv; frame).
  - apply (canplay_invariant
             (fun v => browseStack (state v) = browseStack (state w))); auto.
    all: try (intros l ok v Hv; rewrite <- Hv; frame).
  - frame.
  - frame.
  - frame.
  - apply (tick_invariant
             (fun v => browseStack (state v) = browseStack (state w))); auto.
    all: try (intros a v Hv; rewrite <- Hv; destruct a; frame).
Qed.

(** The browse stack moves only when the listener navigates: opening the
    panel, going back, or clicking a category or collection row.  Closing
    the panel, playing a track from a row, typing in the search box, every
    answer (failed ones included), every media event and every timer leave
    it as it is. *)
Theorem stack_moves_only_by_navigation (evs : list Event) (w : World) :
  Forall (fun e => navigates e = false) evs ->
  browseStack (state (run evs w)) = browseStack (state w).
Proof.
  intros Hevs.
  apply (run_invariant (fun e => negb (navigates e))
           (fun v => browseStack (state v) = browseStack (state w))).
  - intros e v He Hv. rewrite browseStack_step; [exact Hv |].
    now apply negb_true_iff.
  - eapply Forall_impl; [| exact Hevs]. intros e He. now rewrite He.
  - reflexivity.
Qed.

Lemma stack_moves_only_by_navigation_witness :
  browseStack (state (run [Click BtnClose; SearchInput "x"; Answered 2 Failed;
                           TrackClick (sample_track 3); Tick; MediaError]
                          browsing_world))
  = [FCategory "parties"].
Proof.
  apply (stack_moves_only_by_navigation
           [Click BtnClose; SearchInput "x"; Answered 2 Failed;
            TrackClick (sample_track 3); Tick; MediaError] browsing_world).
  repeat constructor.
Defined.

(** A click on a row followed by "back" restores the stack, whatever it
    was, and "back" then sends the one request that reloads what the
    restored top stands for. *)
Theorem click_then_back (w : World) (cat : Category) (col : Collection) :
  let w1 := categoryItem_click cat w in
  let w2 := collectionItem_click col w in
  browseStack (state (browseBack w1)) = browseStack (state w) /\
  browseStack (state (browseBack w2)) = browseStack (state w) /\
  requests (browseBack w1)
    = (requests w1 ++ [reload_request (browseStack (state w))])%list /\
  requests (browseBack w2)
    = (requests w2 ++ [reload_request (browseStack (state w))])%list.
Proof.
  assert (Hpop : forall f v, browseStack (state (pop (push f v))) = browseStack (state v)).
  { intros f v. fields. apply removelast_last. }
  assert (Hback : forall v, browseStack (state (browseBack v)) = browseStack (state (pop v)) /\
            requests (browseBack v)
              = (requests v ++ [reload_request (browseStack (state (pop v)))])%list).
  { intros v. unfold browseBack, reload_request.
    destruct (top (browseStack (state (pop v)))) as [[name | id name] |];
      split; reflexivity. }
  cbv zeta. unfold categoryItem_click, collectionItem_click.
  destruct (Hback (loadCollections (cat_name cat) None (push (FCategory (cat_name cat)) w)))
    as [H1 H2].
  destruct (Hback (loadCollectionDetail (c_id col) (c_name col)
                     (push (FCollection (c_id col) (c_name col)) w)))
    as [H3 H4].
  assert (E1 : browseStack (state (pop (loadCollections (cat_name cat) None
                 (push (FCategory (cat_name cat)) w)))) = browseStack (state w))
    by (fields; unfold loadCollections; fields; apply removelast_last).
  assert (E2 : browseStack (state (pop (loadCollectionDetail (c_id col) (c_name col)
                 (push (FCollection (c_id col) (c_name col)) w)))) = browseStack (state w))
    by (fields; unfold loadCollectionDetail; fields; apply removelast_last).
  rewrite E1 in H1, H2. rewrite E2 in H3, H4.
  repeat split; assumption.
Qed.

(** ** What the page shows of the flags *)

Ltac mirror_frame :=
  unfold spinner_mirrors, spinner_view, play_button_mirrors, play_button_view,
    play_glyph;
  open_handlers; split_cases;
  first [discriminate | left; reflexivity | right; reflexivity
        | left; congruence | right; congruence].

Lemma spinner_resume (k : Cont) (a : Answer) (w w' : World) :
  resume k a w = Some w' ->
  spinner_view w' = spinner_view w \/ spinner_mirrors w'.
Proof. intros Hr. resume_cases k a Hr; mirror_frame. Qed.

Lemma spinner_lift (w v v' : World) :
  spinner_view v' = spinner_view v \/ spinner_mirrors v' ->
  spinner_view v = spinner_view w \/ spinner_mirrors v ->
  spinner_view v' = spinner_view w \/ spinner_mirrors v'.
Proof.
  unfold spinner_view, spinner_mirrors.
  intros [E | M] [E' | M']; auto; [left; congruence |].
  right. injection E as -> ->. exact M'.
Qed.

Lemma spinner_step (e : Event) (w : World) :
  spinner_view (step e w) = spinner_view w \/ spinner_mirrors (step e w).
Proof.
  destruct e; cbn [step].
  - destruct b; mirror_frame.
  - mirror_frame.
  - mirror_frame.
  - mirror_frame.
  - mirror_frame.
  - mirror_frame.
  - mirror_frame.
  - apply (answered_invariant
             (fun v => spinner_view v = spinner_view w \/ spinner_mirrors v));
      [intros; assumption | | now left].
    intros k a0 v v' Hv Hr. eapply spinner_lift; [| exact Hv].
    exact (spinner_resume k a0 v v' Hr).
  - apply (canplay_invariant
             (fun v => spinner_view v = spinner_view w \/ spinner_mirrors v));
      [| now left].
    intros l ok v Hv. eapply spinner_lift; [| exact Hv]. mirror_frame.
  - apply (canplay_invariant
             (fun v => spinner_view v = spinner_view w \/ spinner_mirrors v));
      [| now left].
    intros l ok v Hv. eapply spinner_lift; [| exact Hv]. mirror_frame.
  - mirror_frame.
  - mirror_frame.
  - mirror_frame.
  - apply (tick_invariant
             (fun v => spinner_view v = spinner_view w \/ spinner_mirrors v));
      [intros; assumption | | now left].
    intros a v Hv. eapply spinner_lift; [| exact Hv]. destruct a; mirror_frame.
Qed.

(** From page load on the spinner shows what [isLoading] says: it is on
    whenever the flag is set, and when the flag is clear it is off or still
    as the markup left it. *)
Theorem spinner_follows_loading (d : Dom) (evs : list Event) :
  let w := run evs (init d) in
  (isLoading (state w) = true -> style (dom w) LoadingSpinner display = "flex") /\
  (isLoading (state w) = false ->
     style (dom w) LoadingSpinner display = "none" \/
     style (dom w) LoadingSpinner display = style d LoadingSpinner display).
Proof.
  intros w.
  assert (H : spinner_view w = spinner_view (init d) \/ spinner_mirrors w).
  { unfold w.
    apply (run_invariant (fun _ => true)
             (fun v => spinner_view v = spinner_view (init d) \/ spinner_mirrors v)).
    - intros e v _ Hv. eapply spinner_lift; [apply spinner_step | exact Hv].
    - apply Forall_forall. reflexivity.
    - now left. }
  unfold spinner_view, spinner_mirrors in H. cbn [init] in H.
  destruct H as [E | M].
  - injection E as E1 E2. rewrite E1. split; [discriminate |].
    intros _. right. exact E2.
  - rewrite M. split; intros ->; auto.
Qed.

Lemma play_button_resume (k : Cont) (a : Answer) (w w' : World) :
  resume k a w = Some w' ->
  play_button_view w' = play_button_view w \/ play_button_mirrors w'.
Proof. intros Hr. resume_cases k a Hr; mirror_frame. Qed.

Lemma play_button_lift (w v v' : World) :
  play_button_view v' = play_button_view v \/ play_button_mirrors v' ->
  play_button_view v = play_button_view w \/ play_button_mirrors v ->
  play_button_view v' = play_button_view w \/ play_button_mirrors v'.
Proof.
  unfold play_button_view, play_button_mirrors.
  intros [E | M] [E' | M']; auto; [left; congruence |].
  right. injection E as -> ->. exact M'.
Qed.

Lemma play_button_step (e : Event) (w : World) :
  play_button_view (step e w) = play_button_view w \/
  play_button_mirrors (step e w).
Proof.
  destruct e; cbn [step].
  - destruct b; mirror_frame.
  - mirror_frame.
  - mirror_frame.
  - mirror_frame.
  - mirror_frame.
  - mirror_frame.
  - mirror_frame.
  - apply (answered_invariant
             (fun v => play_button_view v = play_button_view w \/
                       play_button_mirrors v));
      [intros; assumption | | now left].
    intros k a0 v v' Hv Hr. eapply play_button_lift; [| exact Hv].
    exact (play_button_resume k a0 v v' Hr).
  - apply (canplay_invariant
             (fun v => play_button_view v = play_button_view w \/
                       play_button_mirrors v));
      [| now left].
    intros l ok v Hv. eapply play_button_lift; [| exact Hv]. mirror_frame.
  - apply (canplay_invariant
             (fun v => play_button_view v = play_button_view w \/
                       play_button_mirrors v));
      [| now left].
    intros l ok v Hv. eapply play_button_lift; [| exact Hv]. mirror_frame.
  - mirror_frame.
  - mirror_frame.
  - mirror_frame.
  - apply (tick_invariant
             (fun v => play_button_view v = play_button_view w \/
                       play_button_mirrors v));
      [intros; assumption | | now left].
    intros a v Hv. eapply play_button_lift; [| exact Hv]. destruct a; mirror_frame.
Qed.

(** From page load on the play button shows what [isPlaying] says: the
    pause glyph whenever it is set, and when it is clear the play glyph or
    still what the markup put there. *)
Theorem play_button_follows_playing (d : Dom) (evs : list Event) :
  let w := run evs (init d) in
  (isPlaying (state w) = true -> content (dom w) PlayBtn = play_glyph true) /\
  (isPlaying (state w) = false ->
     content (dom w) PlayBtn = play_glyph false \/
     content (dom w) PlayBtn = content d PlayBtn).
Proof.
  intros w.
  assert (H : play_button_view w = play_button_view (init d) \/ play_button_mirrors w).
  { unfold w.
    apply (run_invariant (fun _ => true)
             (fun v => play_button_view v = play_button_view (init d) \/
                       play_button_mirrors v)).
    - intros e v _ Hv. eapply play_button_lift; [apply play_button_step | exact Hv].
    - apply Forall_forall. reflexivity.
    - now left. }
  unfold play_button_view, play_button_mirrors in H. cbn [init] in H.
  destruct H as [E | M].
  - injection E as E1 E2. rewrite E1. split; [discriminate |].
    intros _. right. exact E2.
  - rewrite M. split; intros ->; auto.
Qed.

Ltac heart_frame H :=
  unfold heart_mirrors, heart_glyph in *;
  let t := fresh "t" in
  let Ht := fresh "Ht" in
  intros t Ht; open_handlers; split_cases;
  try discriminate;
  try (let X := fresh "X" in
       assert (X := H t ltac:(congruence)); destruct X);
  try (injection Ht as ?; subst);
  cbn [t_upvoted set_upvoted] in *;
  repeat match goal with
         | E : t_upvoted _ = _ |- _ => progress (rewrite E in * )
         | E : negb _ = _ |- _ => progress (rewrite E in * )
         end;
  first [discriminate | split; assumption | split; congruence].

Lemma heart_resume (k : Cont) (a : Answer) (w w' : World) :
  heart_mirrors w -> resume k a w = Some w' -> heart_mirrors w'.
Proof. intros H Hr. resume_cases k a Hr; heart_frame H. Qed.

Lemma heart_step (e : Event) (w : World) :
  heart_mirrors w -> heart_mirrors (step e w).
Proof.
  intros H. destruct e; cbn [step].
  - destruct b; heart_frame H.
  - heart_frame H.
  - heart_frame H.
  - heart_frame H.
  - heart_frame H.
  - heart_frame H.
  - heart_frame H.
  - apply (answered_invariant heart_mirrors); [intros; assumption | | exact H].
    intros k a0 v v' Hv Hr. exact (heart_resume k a0 v v' Hv Hr).
  - apply (canplay_invariant heart_mirrors); [| exact H].
    intros l ok v Hv. heart_frame Hv.
  - apply (canplay_invariant heart_mirrors); [| exact H].
    intros l ok v Hv. heart_frame Hv.
  - heart_frame H.
  - heart_frame H.
  - heart_frame H.
  - apply (tick_invariant heart_mirrors); [intros; assumption | | exact H].
    intros a v Hv. destruct a; heart_frame Hv.
Qed.

(** In every world the page can reach, the heart shows the upvote flag of
    the track that is held: filled and active when it is upvoted, hollow and
    inactive when it is not. *)
Theorem heart_follows_upvote (d : Dom) (evs : list Event) (t : Track) :
  track (state (run evs (init d))) = Some t ->
  classList (dom (run evs (init d))) HeartBtn "active" = t_upvoted t /\
  content (dom (run evs (init d))) HeartBtn = heart_glyph (t_upvoted t).
Proof.
  revert t. change (heart_mirrors (run evs (init d))).
  apply (run_invariant (fun _ => true) heart_mirrors).
  - intros e v _. apply heart_step.
  - apply Forall_forall. reflexivity.
  - intros t Ht. discriminate Ht.
Qed.

Lemma heart_follows_upvote_witness :
  classList (dom (run [TrackClick (sample_track 3); Click BtnHeart; Answered 1 Done]
                      (init blank))) HeartBtn "active" = true.
Proof.
  exact (proj1 (heart_follows_upvote blank
                  [TrackClick (sample_track 3); Click BtnHeart; Answered 1 Done]
                  (set_upvoted true (sample_track 3)) eq_refl)).
Defined.

(** ** Transitions that succeed, and answers without a track *)

Lemma length_removelast_pred {A} (l : list A) :
  List.length (removelast l) = Nat.pred (List.length l).
Proof.
  induction l as [|x l IH]; [reflexivity |].
  destruct l as [|y l]; [reflexivity |].
  change (removelast (x :: y :: l)) with (x :: removelast (y :: l)).
  cbn [List.length] in *. now rewrite IH.
Qed.

(** One listener: what it leaves alone, and what it sets. *)
Lemma onCanPlay_effect (l : Listener) (ok : bool) (v : World) :
  (src (audio (onCanPlay l ok v)) = src (audio v) /\
   requests (onCanPlay l ok v) = requests v /\
   pending (onCanPlay l ok v) = pending v /\
   track (state (onCanPlay l ok v)) = track (state v)) /\
  canplay (audio (onCanPlay l ok v)) = Nat.pred (canplay (audio v)) /\
  paused (audio (onCanPlay l ok v)) = (if ok then false else paused (audio v)) /\
  console (onCanPlay l ok v)
    = (console v ++ (if ok then [] else if logs l then ["Autoplay blocked:"] else []))%list /\
  isLoading (state (onCanPlay l ok v)) = false /\
  isPlaying (state (onCanPlay l ok v)) = true /\
  content (dom (onCanPlay l ok v)) PlayBtn = play_glyph true.
Proof.
  assert (Hc : canplay (audio (onCanPlay l ok v)) = Nat.pred (canplay (audio v))).
  { unfold canplay. rewrite <- length_removelast_pred. destruct ok, l; reflexivity. }
  destruct ok, l; cbn [logs]; rewrite ?app_nil_r; repeat split; try reflexivity;
    exact Hc.
Qed.

Lemma listeners_run (ok : bool) (ls : list Listener) (w : World) :
  let w' := fold_right (fun l v => onCanPlay l ok v) w ls in
  canplay (audio w') = (canplay (audio w) - List.length ls)%nat /\
  paused (audio w')
    = (if ok then match ls with [] => paused (audio w) | _ => false end
       else paused (audio w)) /\
  console w'
    = (console w ++ (if ok then []
                     else List.repeat "Autoplay blocked:"
                            (List.length (filter logs ls))))%list /\
  (ls <> [] ->
     isLoading (state w') = false /\ isPlaying (state w') = true /\
     content (dom w') PlayBtn = play_glyph true).
Proof.
  induction ls as [|l ls IH]; cbn zeta.
  - cbn [fold_right List.length filter List.repeat].
    rewrite Nat.sub_0_r. destruct ok; rewrite app_nil_r; repeat split; congruence.
  - cbn [fold_right]. cbn zeta in IH.
    set (v := fold_right (fun l v => onCanPlay l ok v) w ls) in *.
    destruct IH as (I1 & I2 & I3 & _).
    destruct (onCanPlay_effect l ok v) as (_ & E1 & E2 & E3 & E4 & E5 & E6).
    split; [rewrite E1, I1; cbn [List.length]; lia |].
    split; [rewrite E2; destruct ok; [reflexivity | exact I2] |].
    split; [| intros _; now repeat split].
    rewrite E3, I3. destruct ok; [now rewrite !app_nil_r |].
    rewrite <- app_assoc. f_equal. cbn [filter].
    destruct (logs l); [| now rewrite app_nil_r].
    cbn [List.length List.repeat]. symmetry. apply repeat_cons.
Qed.

Lemma canplay_keeps (ok : bool) (w : World) :
  src (audio (canplay_event ok w)) = src (audio w) /\
  requests (canplay_event ok w) = requests w /\
  pending (canplay_event ok w) = pending w /\
  track (state (canplay_event ok w)) = track (state w).
Proof.
  apply (canplay_invariant
           (fun v => src (audio v) = src (audio w) /\ requests v = requests w /\
                     pending v = pending w /\
                     track (state v) = track (state w))); [| now repeat split].
  intros l b v (H1 & H2 & H3 & H4).
  destruct (onCanPlay_effect l b v) as ((E1 & E2 & E3 & E4) & _).
  repeat split; congruence.
Qed.

Lemma canplay_idle (ok : bool) (w : World) :
  canplay (audio w) = 0%nat -> canplay_event ok w = w.
Proof.
  unfold canplay, canplay_event.
  destruct (listeners (audio w)); [reflexivity | discriminate].
Qed.

Lemma canplay_effect (ok : bool) (w : World) :
  canplay (audio w) <> 0%nat ->
  let w' := canplay_event ok w in
  isLoading (state w') = false /\
  isPlaying (state w') = true /\
  content (dom w') PlayBtn = play_glyph true /\
  paused (audio w') = (if ok then false else paused (audio w)) /\
  console w' = (console w ++ blocked_log ok (audio w))%list /\
  canplay (audio w') = 0%nat /\
  src (audio w') = src (audio w) /\
  requests w' = requests w.
Proof.
  intros H. cbv zeta.
  destruct (canplay_keeps ok w) as (Hs & Hr & _).
  unfold canplay_event, blocked_log in *.
  destruct (listeners_run ok (listeners (audio w)) w) as (L1 & L2 & L3 & L4).
  cbv zeta in L1, L2, L3, L4.
  assert (N : listeners (audio w) <> []).
  { intros E. apply H. unfold canplay. now rewrite E. }
  destruct (L4 N) as (F1 & F2 & F3).
  repeat split; try assumption.
  - rewrite L2. destruct ok; [| reflexivity].
    destruct (listeners (audio w)); [now elim N | reflexivity].
  - rewrite L1. unfold canplay. lia.
Qed.

(** The [canplay] listeners are one-shot: when the media becomes playable
    every bound listener runs and unbinds itself, which leaves the player
    not loading, [isPlaying] set and the pause glyph shown.  If the
    browser allows [play()] the element is playing; if it refuses, the
    element stays as it was (paused after a load) under the same flag
    and glyph, and each listener bound by [playTrack] logs the refusal.  A
    [canplay] with no listener bound, such as a second one for the same
    load, changes nothing. *)
Theorem canplay_fires_once (ok : bool) (w : World) :
  let w' := step (canplay_of ok) w in
  (canplay (audio w) = 0%nat -> w' = w) /\
  (canplay (audio w) <> 0%nat ->
     isLoading (state w') = false /\
     isPlaying (state w') = true /\
     content (dom w') PlayBtn = play_glyph true /\
     paused (audio w') = (if ok then false else paused (audio w)) /\
     console w' = (console w ++ blocked_log ok (audio w))%list /\
     canplay (audio w') = 0%nat /\
     src (audio w') = src (audio w) /\
     requests w' = requests w /\
     step CanPlay w' = w' /\ step CanPlayBlocked w' = w').
Proof.
  assert (E : step (canplay_of ok) w = canplay_event ok w) by (now destruct ok).
  cbv zeta. rewrite E. split; [apply canplay_idle |].
  intros H.
  destruct (canplay_effect ok w H) as (H1 & H2 & H3 & H4 & H5 & H6 & H7 & H8).
  repeat split; try assumption; cbn [step]; now apply canplay_idle.
Qed.

Lemma canplay_fires_once_witness :
  paused (audio (step CanPlayBlocked playing_world)) = true /\
  isPlaying (state (step CanPlayBlocked playing_world)) = true /\
  step CanPlay (step CanPlay playing_world) = step CanPlay playing_world.
Proof.
  assert (H : canplay (audio playing_world) <> 0%nat) by discriminate.
  destruct (proj2 (canplay_fires_once false playing_world) H)
    as (_ & Hp & _ & Hq & _).
  destruct (proj2 (canplay_fires_once true playing_world) H)
    as (_ & _ & _ & _ & _ & _ & _ & _ & Hi & _).
  split; [exact Hq | split; [exact Hp | exact Hi]].
Defined.

Lemma applied_after_answer (data : PlayerData) (t : Track) (w : World) :
  d_track data = Some t -> applied data t (playTrack (applyPlayerState data w)).
Proof.
  intros Hd. unfold applied, playTrack, applyPlayerState. rewrite Hd.
  unfold loadArt.
  destruct (d_collection data) as [col |]; [destruct (has_art col) |];
    fields; repeat split; reflexivity.
Qed.

(** A transition that succeeds.  In a world that is not loading,
    [nextTrack] sends one POST carrying the selected scope and [prevTrack]
    one POST to [/api/player/prev]; when the answer brings a track, that
    snapshot is held and shown, the prev button is opaque exactly when
    [has_prev] is set, its stream is loading, and once the media can play
    the player is playing it and no longer loading. *)
Theorem transition_succeeds (w : World) (data : PlayerData) (t : Track) :
  isLoading (state w) = false ->
  d_track data = Some t ->
  let i := List.length (pending w) in
  let n2 := step (Answered i (Player data)) (nextTrack w) in
  let p2 := step (Answered i (Player data)) (prevTrack w) in
  requests (nextTrack w)
    = (requests w ++ [mkRequest POST (ApiPlayerNext (scope (state w)))])%list /\
  requests (prevTrack w) = (requests w ++ [mkRequest POST ApiPlayerPrev])%list /\
  applied data t n2 /\ applied data t p2 /\
  requests n2 = requests (nextTrack w) /\ pending n2 = pending w /\
  isLoading (state (step CanPlay n2)) = false /\
  isPlaying (state (step CanPlay n2)) = true /\
  track (state (step CanPlay n2)) = Some t /\
  isLoading (state (step CanPlay p2)) = false /\
  isPlaying (state (step CanPlay p2)) = true /\
  track (state (step CanPlay p2)) = Some t.
Proof.
  intros Hl Hd. cbv zeta.
  assert (Hn : step (Answered (List.length (pending w)) (Player data)) (nextTrack w)
               = playTrack (applyPlayerState data
                   (set_pending (pending w) (nextTrack w)))).
  { cbn [step]. unfold answered, nextTrack. rewrite Hl. fields.
    rewrite nth_error_newest, remove_nth_newest. reflexivity. }
  assert (Hp : step (Answered (List.length (pending w)) (Player data)) (prevTrack w)
               = playTrack (applyPlayerState data
                   (set_pending (pending w) (prevTrack w)))).
  { cbn [step]. unfold answered, prevTrack. rewrite Hl. fields.
    rewrite nth_error_newest, remove_nth_newest. reflexivity. }
  rewrite Hn, Hp.
  pose proof (applied_after_answer data t (set_pending (pending w) (nextTrack w)) Hd) as An.
  pose proof (applied_after_answer data t (set_pending (pending w) (prevTrack w)) Hd) as Ap.
  set (n2 := playTrack (applyPlayerState data (set_pending (pending w) (nextTrack w)))) in *.
  set (p2 := playTrack (applyPlayerState data (set_pending (pending w) (prevTrack w)))) in *.
  assert (Cn : canplay (audio n2) <> 0%nat).
  { unfold n2, playTrack, applyPlayerState. rewrite Hd. unfold loadArt.
    destruct (d_collection data) as [col |]; [destruct (has_art col) |];
      fields; discriminate. }
  assert (Cp : canplay (audio p2) <> 0%nat).
  { unfold p2, playTrack, applyPlayerState. rewrite Hd. unfold loadArt.
    destruct (d_collection data) as [col |]; [destruct (has_art col) |];
      fields; discriminate. }
  destruct (canplay_effect true n2 Cn) as (N1 & N2 & _).
  destruct (canplay_effect true p2 Cp) as (P1 & P2 & _).
  destruct (canplay_keeps true n2) as (_ & _ & _ & N3).
  destruct (canplay_keeps true p2) as (_ & _ & _ & P3).
  cbn [step].
  destruct An as (An1 & An). destruct Ap as (Ap1 & Ap).
  rewrite N3, P3.
  assert (Rn : requests n2 = requests (nextTrack w) /\ pending n2 = pending w).
  { unfold n2, playTrack, applyPlayerState. rewrite Hd. unfold loadArt.
    destruct (d_collection data) as [col |]; [destruct (has_art col) |];
      fields; split; reflexivity. }
  unfold nextTrack at 1, prevTrack at 1. rewrite Hl. fields.
  unfold applied. tauto.
Qed.

Lemma transition_succeeds_witness :
  track (state (step CanPlay (step (Answered 1 (sample_answer 2))
                                   (nextTrack (init blank)))))
    = Some (sample_track 2) /\
  isPlaying (state (step CanPlay (step (Answered 1 (sample_answer 2))
                                       (nextTrack (init blank))))) = true.
Proof.
  destruct (transition_succeeds (init blank)
              (mkPlayerData (Some (sample_track 2)) None "music" true)
              (sample_track 2) eq_refl eq_refl)
    as (_ & _ & _ & _ & _ & _ & _ & Hp & Ht & _).
  split; [exact Ht | exact Hp].
Defined.

(** An answer to [nextTrack] or [prevTrack] that brings no track leaves the
    snapshot held as it was and shows "No tracks available" over it.  If a
    track is held, that track is loaded again; if none is held, nothing is
    loaded, [isLoading] stays set with no listener to clear it, and further
    calls of [nextTrack] and [prevTrack] are dropped. *)
Theorem trackless_answer (w : World) (data : PlayerData) (i : nat) (k : Cont) :
  nth_error (pending w) i = Some k ->
  is_transition k = true ->
  d_track data = None ->
  let w' := step (Answered i (Player data)) w in
  track (state w') = track (state w) /\
  collection (state w') = collection (state w) /\
  categoryName (state w') = categoryName (state w) /\
  content (dom w') TrackTitle = [Text "No tracks available"] /\
  toasts w' = toasts w /\
  (forall t, track (state w) = Some t ->
     src (audio w') = Some (t_id t) /\ isLoading (state w') = true /\
     canplay (audio w') = S (canplay (audio w))) /\
  (track (state w) = None ->
     audio w' = audio w /\ isLoading (state w') = isLoading (state w) /\
     (isLoading (state w) = true -> nextTrack w' = w' /\ prevTrack w' = w')).
Proof.
  intros Hk Ht Hd. cbn [step]. unfold answered. rewrite Hk.
  assert (E : resume k (Player data) (set_pending (remove_nth i (pending w)) w)
              = Some (playTrack (applyPlayerState data
                        (set_pending (remove_nth i (pending w)) w))))
    by (destruct k; try discriminate Ht; reflexivity).
  rewrite E. unfold playTrack, applyPlayerState. rewrite Hd. fields.
  destruct (track (state w)) as [t0 |] eqn:Htr; fields; rewrite ?Htr.
  - do 5 (split; [reflexivity |]). split.
    + intros t Hs. injection Hs as <-. repeat split; reflexivity.
    + intros Hn. discriminate Hn.
  - do 5 (split; [reflexivity |]). split.
    + intros t Hs. discriminate Hs.
    + intros _. split; [reflexivity |]. split; [reflexivity |].
      intros Hl. split; [unfold nextTrack | unfold prevTrack]; fields;
        now rewrite Hl.
Qed.

Lemma trackless_answer_witness :
  isLoading (state (step (Answered 1 (Player no_track)) loading_world)) = true /\
  step (Click BtnNext) (step (Answered 1 (Player no_track)) loading_world)
    = step (Answered 1 (Player no_track)) loading_world.
Proof.
  destruct (trackless_answer loading_world no_track 1 KNextTrack
              eq_refl eq_refl eq_refl) as (_ & _ & _ & _ & _ & _ & H).
  destruct (H eq_refl) as (_ & Hl & Hd).
  split; [exact Hl | exact (proj1 (Hd eq_refl))].
Defined.

(** ** Play and pause *)



(** ** Cover art *)

(** A collection without an art reference, no collection at all, and a
    collection whose image fails to load all end the same way: the image
    hidden, the placeholder shown, and the box coloured from the name of
    the collection ("music" when there is none).  While an image is shown
    its [onerror] handler is bound to that collection. *)
Theorem art_falls_back_to_placeholder (w : World) (c : Collection) :
  (has_art c = false -> art_view (loadArt (Some c) w) = placeholder_view (c_name c)) /\
  art_view (loadArt None w) = placeholder_view "music" /\
  (has_art c = true ->
     style (dom (loadArt (Some c) w)) ArtImg display = "block" /\
     style (dom (loadArt (Some c) w)) ArtPlaceholder display = "none" /\
     img_src (dom (loadArt (Some c) w)) = Some (c_id c) /\
     art_view (step ArtError (loadArt (Some c) w)) = placeholder_view (c_name c)).
Proof.
  unfold art_view, placeholder_view, loadArt. cbn [step]. unfold artImg_onerror.
  split; [| split].
  - intros H. rewrite H. reflexivity.
  - reflexivity.
  - intros H. rewrite H. fields. repeat split; reflexivity.
Qed.

Lemma art_falls_back_to_placeholder_witness :
  art_view (loadArt (Some assembly) (fresh blank)) = placeholder_view "assembly" /\
  art_view (step ArtError (loadArt (Some (with_art assembly "a.png")) (fresh blank)))
    = placeholder_view "assembly".
Proof.
  split.
  - exact (proj1 (art_falls_back_to_placeholder (fresh blank) assembly) eq_refl).
  - exact (proj2 (proj2 (proj2 (proj2 (proj2 (art_falls_back_to_placeholder
             (fresh blank) (with_art assembly "a.png"))) eq_refl)))).
Defined.

(** The [onerror] handler of the image outlives the collection it was bound
    for: when the next collection has no art the handler is not replaced,
    and a late failure of the old image recolours the box from the old
    collection's name. *)
Theorem stale_art_handler (w : World) (old new : Collection) :
  has_art old = true -> has_art new = false ->
  let w' := loadArt (Some new) (loadArt (Some old) w) in
  art_view w' = placeholder_view (c_name new) /\
  img_onerror (dom w') = Some old /\
  art_view (step ArtError w') = placeholder_view (c_name old).
Proof.
  intros Ho Hn. cbv zeta. unfold art_view, placeholder_view, loadArt.
  cbn [step]. unfold artImg_onerror. rewrite Ho, Hn. fields.
  repeat split; reflexivity.
Qed.

Lemma stale_art_handler_witness :
  art_view (step ArtError (loadArt (Some assembly)
              (loadArt (Some (mkCollection 9 "breakpoint" (Some "b.png") 4))
                       (fresh blank))))
    = placeholder_view "breakpoint".
Proof.
  exact (proj2 (proj2 (stale_art_handler (fresh blank)
                  (mkCollection 9 "breakpoint" (Some "b.png") 4) assembly
                  eq_refl eq_refl))).
Defined.

(** ** Browse loads *)

(** Whatever answers a browse load (categories, collections, tracks of a
    collection) touches the content of the browse list and nothing else:
    [state], the media element, the clock and the timers, the requests and
    the console are as before, no toast is shown, and on the page the
    content of every other element and every style, class, input value and
    the art image with its error handler are unchanged.  A failed load puts
    the "Failed to load" row alone in the list. *)
Theorem browse_answer_is_local (w : World) (i : nat) (k : Cont) (a : Answer) :
  nth_error (pending w) i = Some k ->
  browse_cont k = true ->
  let w' := step (Answered i a) w in
  state w' = state w /\ audio w' = audio w /\ timers w' = timers w /\
  requests w' = requests w /\ toasts w' = toasts w /\
  (forall e, e <> BrowseList -> content (dom w') e = content (dom w) e) /\
  style (dom w') = style (dom w) /\
  classList (dom w') = classList (dom w) /\
  value (dom w') = value (dom w) /\
  img_src (dom w') = img_src (dom w) /\
  img_onerror (dom w') = img_onerror (dom w) /\
  now w' = now w /\ nextTimer w' = nextTimer w /\
  searchTimeout w' = searchTimeout w /\ console w' = console w /\
  (a = Failed ->
     content (dom w') BrowseList = [ItemFailed] /\
     pending w' = remove_nth i (pending w)).
Proof.
  intros Hk Hb. cbn [step]. unfold answered. rewrite Hk.
  destruct k; try discriminate Hb;
    destruct a as [| ? | ? | [| ? ?] | ? |]; fields;
    (repeat split; try reflexivity; try discriminate;
     intros e He; destruct e; try reflexivity; congruence).
Qed.

Lemma browse_answer_is_local_witness :
  content (dom (step (Answered 2 Failed) browsing_world)) BrowseList = [ItemFailed] /\
  toasts (step (Answered 2 Failed) browsing_world) = [].
Proof.
  destruct (browse_answer_is_local browsing_world 2 KCollections Failed
              eq_refl eq_refl)
    as (_ & _ & _ & _ & Ht & _ & _ & _ & _ & _ & _ & _ & _ & _ & _ & Hf).
  split; [exact (proj1 (Hf eq_refl)) | exact Ht].
Defined.

(** ** The toast *)

Lemma toast_run_timer (a : TimerAction) (w : World) :
  toast_shown (run_timer a w)
    = (if is_hide_timer (mkTimer 0 0 a) then false else toast_shown w).
Proof.
  unfold toast_shown, is_hide_timer. destruct a; cbn [action]; frame.
Qed.

Lemma toast_run_timers (l : list Timer) :
  forall w,
  toast_shown (fold_left (fun w x => run_timer (action x) w) l w)
    = (if existsb is_hide_timer l then false else toast_shown w).
Proof.
  induction l as [|x l IH]; intros w; cbn [fold_left existsb]; [reflexivity |].
  rewrite IH, toast_run_timer.
  change (is_hide_timer (mkTimer 0 0 (action x))) with (is_hide_timer x).
  destruct (is_hide_timer x); cbn [orb]; [| reflexivity].
  now destruct (existsb is_hide_timer l).
Qed.

Lemma existsb_filter_swap {A} (p q : A -> bool) (l : list A) :
  existsb p (filter q l) = existsb q (filter p l).
Proof.
  induction l as [|x l IH]; [reflexivity |]. cbn [filter].
  destruct (p x) eqn:Hp, (q x) eqn:Hq; cbn [existsb]; rewrite ?Hp, ?Hq, IH;
    reflexivity.
Qed.

(** What one millisecond does to the toast. *)
Lemma toast_tick (w : World) :
  now (tick w) = S (now w) /\
  hide_timers (tick w) = filter (fun x => negb (is_due (S (now w)) x)) (hide_timers w) /\
  toast_shown (tick w)
    = (if existsb (is_due (S (now w))) (hide_timers w) then false else toast_shown w) /\
  content (dom (tick w)) Toast = content (dom w) Toast.
Proof.
  unfold tick.
  set (t := S (now w)).
  set (ready := filter (is_due t) (timers w)).
  set (later := filter (fun x => negb (is_due t x)) (timers w)).
  destruct (run_timers_frame ready (set_timers later (set_now t w))) as [Hv _].
  cbv zeta in Hv. unfold timer_view in Hv. injection Hv as H1 H2 _ _.
  split; [exact H2 |]. split; [| split].
  - unfold hide_timers. rewrite H1. unfold later. cbn [timers set_timers set_now].
    apply filter_swap.
  - rewrite toast_run_timers. unfold ready, hide_timers.
    now rewrite existsb_filter_swap.
  - apply (timers_invariant (fun v => content (dom v) Toast = content (dom w) Toast));
      [| reflexivity].
    intros a v Hv. rewrite <- Hv. destruct a; frame.
Qed.

Lemma wait_stays_hidden (n : nat) :
  forall w, toast_shown w = false -> toast_shown (wait n w) = false.
Proof.
  induction n as [|n IH]; intros w H; cbn [wait]; [exact H |].
  apply IH. destruct (toast_tick w) as (_ & _ & Ht & _). rewrite Ht, H.
  now destruct (existsb _ _).
Qed.

Lemma wait_hides (n : nat) :
  forall w x, In x (hide_timers w) -> (due x <= now w + n)%nat -> (0 < n)%nat ->
  toast_shown (wait n w) = false.
Proof.
  induction n as [|n IH]; intros w x Hin Hdue Hpos; [lia |]. cbn [wait].
  destruct (toast_tick w) as (Hn & Hh & Ht & _).
  destruct (is_due (S (now w)) x) eqn:Hx.
  - apply wait_stays_hidden. rewrite Ht.
    assert (E : existsb (is_due (S (now w))) (hide_timers w) = true)
      by (apply existsb_exists; now exists x).
    now rewrite E.
  - assert (Hin' : In x (hide_timers (tick w))).
    { rewrite Hh. apply filter_In. split; [exact Hin | now rewrite Hx]. }
    unfold is_due in Hx. apply Nat.leb_gt in Hx.
    apply (IH (tick w) x Hin'); lia.
Qed.

Lemma wait_keeps_timer (n : nat) :
  forall w x, In x (hide_timers w) -> (now w + n < due x)%nat ->
  In x (hide_timers (wait n w)) /\ now (wait n w) = (now w + n)%nat.
Proof.
  induction n as [|n IH]; intros w x Hin Hlt; cbn [wait].
  - split; [exact Hin | lia].
  - destruct (toast_tick w) as (Hn & Hh & _).
    assert (Hin' : In x (hide_timers (tick w))).
    { rewrite Hh. apply filter_In. split; [exact Hin |].
      unfold is_due. apply negb_true_iff, Nat.leb_gt. lia. }
    destruct (IH (tick w) x Hin' ltac:(lia)) as [H1 H2].
    split; [exact H1 | lia].
Qed.

Lemma wait_shows_alone (n : nat) :
  forall w x, hide_timers w = [x] -> (now w + n < due x)%nat ->
  toast_shown (wait n w) = toast_shown w /\
  content (dom (wait n w)) Toast = content (dom w) Toast.
Proof.
  induction n as [|n IH]; intros w x Hh Hlt; cbn [wait]; [now split |].
  destruct (toast_tick w) as (Hn & Hh' & Ht & Hc).
  rewrite Hh in Hh', Ht. cbn [filter existsb] in Hh', Ht.
  assert (Hx : is_due (S (now w)) x = false)
    by (unfold is_due; apply Nat.leb_gt; lia).
  rewrite Hx in Hh', Ht. cbn in Hh', Ht.
  destruct (IH (tick w) x Hh' ltac:(lia)) as [H1 H2].
  split; congruence.
Qed.

Lemma showToast_effect (msg : string) (w : World) :
  toast_shown (showToast msg w) = true /\
  content (dom (showToast msg w)) Toast = [Text msg] /\
  hide_timers (showToast msg w)
    = (hide_timers w ++ [mkTimer (nextTimer w) (now w + 2500) THideToast])%list /\
  now (showToast msg w) = now w.
Proof.
  unfold toast_shown, hide_timers, showToast. fields.
  rewrite filter_app. repeat split; reflexivity.
Qed.

(** A toast is taken down 2500 ms after it was put up.  If no older toast
    is still waiting to be hidden, the message stays up for all of those
    2500 ms.  If one is, its timer is not cancelled: a second toast put up
    [gap] ms after the first is taken down when the first one's time is up,
    after only [2500 - gap] ms. *)
Theorem toast_lifetime (w : World) (msg : string) :
  (forall n, (2500 <= n)%nat -> toast_shown (wait n (showToast msg w)) = false) /\
  (hide_timers w = [] ->
   forall n, (n < 2500)%nat ->
     toast_shown (wait n (showToast msg w)) = true /\
     content (dom (wait n (showToast msg w))) Toast = [Text msg]) /\
  (forall gap second n, (gap < 2500)%nat -> (2500 - gap <= n)%nat ->
     let w2 := showToast second (wait gap (showToast msg w)) in
     toast_shown w2 = true /\ content (dom w2) Toast = [Text second] /\
     toast_shown (wait n w2) = false).
Proof.
  destruct (showToast_effect msg w) as (Hs & Hc & Hh & Hn).
  assert (Hin : In (mkTimer (nextTimer w) (now w + 2500) THideToast)
                   (hide_timers (showToast msg w))).
  { rewrite Hh. apply in_or_app. right. now left. }
  split; [| split].
  - intros n Hle. apply (wait_hides n _ _ Hin); cbn [due]; lia.
  - intros Hnone n Hlt. rewrite Hnone in Hh. cbn [app] in Hh.
    destruct (wait_shows_alone n _ _ Hh) as [H1 H2]; [cbn [due]; lia |].
    split; congruence.
  - intros gap second n Hgap Hle w2.
    destruct (wait_keeps_timer gap _ _ Hin) as [Hk Hnow]; [cbn [due]; lia |].
    destruct (showToast_effect second (wait gap (showToast msg w)))
      as (Hs2 & Hc2 & Hh2 & Hn2).
    fold w2 in Hs2, Hc2, Hh2, Hn2.
    split; [exact Hs2 |]. split; [exact Hc2 |].
    assert (Hin2 : In (mkTimer (nextTimer w) (now w + 2500) THideToast) (hide_timers w2)).
    { rewrite Hh2. apply in_or_app. now left. }
    apply (wait_hides n _ _ Hin2); cbn [due]; lia.
Qed.

Lemma toast_lifetime_witness :
  toast_shown (wait 2499 (showToast "Saved to library" (fresh blank))) = true /\
  toast_shown (wait 500 (showToast "Upvote failed"
                 (wait 2000 (showToast "Saved to library" (fresh blank))))) = false.
Proof.
  split.
  - apply (proj1 (proj2 (toast_lifetime (fresh blank) "Saved to library")) eq_refl 2499%nat).
    lia.
  - apply (proj2 (proj2 (toast_lifetime (fresh blank) "Saved to library"))
             2000%nat "Upvote failed" 500%nat); lia.
Defined.

(** ** Skipping after a media error *)

Lemma next_requests_api (m : Method) (u : Url) (k : Cont) (w : World) :
  next_requests (api m u k w)
    = (next_requests w ++ filter is_next [mkRequest m u])%list.
Proof.
  unfold next_requests, api. cbn [requests set_pending set_requests].
  apply filter_app.
Qed.

Lemma skip_view_run_timer (a : TimerAction) (w : World) :
  skip_view (run_timer a w)
    = (if is_skip_timer (mkTimer 0 0 a) then skipped (skip_view w) else skip_view w).
Proof.
  unfold skip_view, skipped, is_skip_timer. cbn [action].
  destruct a; cbn [run_timer].
  - unfold loadCurrent. rewrite next_requests_api. fields. cbn [filter is_next url].
    now rewrite app_nil_r.
  - unfold nextTrack. destruct (isLoading (state w)) eqn:Hl; [now rewrite Hl |].
    rewrite next_requests_api. fields. reflexivity.
  - unfold search_fire.
    destruct (top (browseStack (state w))) as [[name | id name] |]; try reflexivity.
    unfold loadCollections. rewrite next_requests_api. fields.
    cbn [filter is_next url]. now rewrite app_nil_r.
  - reflexivity.
  - destruct (track (state w)); [reflexivity |].
    unfold loadCurrent. rewrite next_requests_api. fields. cbn [filter is_next url].
    now rewrite app_nil_r.
Qed.

Lemma skipped_idem (v : bool * list Request * string) :
  fst (fst v) = true -> skipped v = v.
Proof. destruct v as [[[|] r] s]; cbn; [reflexivity | discriminate]. Qed.

Lemma skipped_sets (v : bool * list Request * string) :
  fst (fst (skipped v)) = true.
Proof. destruct v as [[[|] r] s]; reflexivity. Qed.

Lemma skip_view_run_timers (l : list Timer) :
  forall w,
  skip_view (fold_left (fun w x => run_timer (action x) w) l w)
    = (if existsb is_skip_timer l then skipped (skip_view w) else skip_view w).
Proof.
  induction l as [|x l IH]; intros w; cbn [fold_left existsb]; [reflexivity |].
  rewrite IH, skip_view_run_timer.
  change (is_skip_timer (mkTimer 0 0 (action x))) with (is_skip_timer x).
  destruct (is_skip_timer x); cbn [orb]; [| reflexivity].
  destruct (existsb is_skip_timer l); [| reflexivity].
  apply skipped_idem, skipped_sets.
Qed.

Lemma skip_tick (w : World) :
  now (tick w) = S (now w) /\
  skip_timers (tick w) = filter (fun x => negb (is_due (S (now w)) x)) (skip_timers w) /\
  skip_view (tick w)
    = (if existsb (is_due (S (now w))) (skip_timers w)
       then skipped (skip_view w) else skip_view w).
Proof.
  unfold tick.
  set (t := S (now w)).
  set (ready := filter (is_due t) (timers w)).
  set (later := filter (fun x => negb (is_due t x)) (timers w)).
  destruct (run_timers_frame ready (set_timers later (set_now t w))) as [Hv _].
  cbv zeta in Hv. unfold timer_view in Hv. injection Hv as H1 H2 _ _.
  split; [exact H2 |]. split.
  - unfold skip_timers. rewrite H1. unfold later. cbn [timers set_timers set_now].
    apply filter_swap.
  - rewrite skip_view_run_timers. unfold ready, skip_timers.
    now rewrite existsb_filter_swap.
Qed.

Lemma wait_while_loading (n : nat) :
  forall w, isLoading (state w) = true -> skip_view (wait n w) = skip_view w.
Proof.
  induction n as [|n IH]; intros w H; cbn [wait]; [reflexivity |].
  destruct (skip_tick w) as (_ & _ & Hv).
  assert (E : skip_view (tick w) = skip_view w).
  { rewrite Hv. destruct (existsb _ _); [| reflexivity].
    apply skipped_idem. exact H. }
  rewrite IH; [exact E |].
  unfold skip_view in E. injection E as E1 _ _. congruence.
Qed.

Lemma wait_skips (n : nat) :
  forall w x, In x (skip_timers w) -> (due x <= now w + n)%nat -> (0 < n)%nat ->
  skip_view (wait n w) = skipped (skip_view w).
Proof.
  induction n as [|n IH]; intros w x Hin Hdue Hpos; [lia |]. cbn [wait].
  destruct (skip_tick w) as (Hn & Hs & Hv).
  destruct (is_due (S (now w)) x) eqn:Hx.
  - assert (E : existsb (is_due (S (now w))) (skip_timers w) = true)
      by (apply existsb_exists; now exists x).
    rewrite E in Hv. rewrite wait_while_loading; [exact Hv |].
    pose proof (skipped_sets (skip_view w)) as Hl. rewrite <- Hv in Hl. exact Hl.
  - assert (Hin' : In x (skip_timers (tick w))).
    { rewrite Hs. apply filter_In. split; [exact Hin | now rewrite Hx]. }
    unfold is_due in Hx. apply Nat.leb_gt in Hx.
    rewrite (IH (tick w) x Hin') by lia. rewrite Hv.
    destruct (existsb _ _); [| reflexivity].
    apply skipped_idem, skipped_sets.
Qed.

(** After a media error the player skips once.  The [error] listener
    clears [isLoading], shows one toast and sets a timer; when a second or
    more has passed with no other event, exactly one request for the next
    track has gone out, with the selected scope, and the player is loading,
    however many earlier skip timers were still waiting. *)
Theorem media_error_skips_once (w : World) (n : nat) :
  (1000 <= n)%nat ->
  let w1 := step MediaError w in
  isLoading (state w1) = false /\
  toasts w1 = (toasts w ++ ["Playback error, skipping..."])%list /\
  next_requests w1 = next_requests w /\
  next_requests (wait n w1)
    = (next_requests w ++ [mkRequest POST (ApiPlayerNext (scope (state w)))])%list /\
  isLoading (state (wait n w1)) = true.
Proof.
  intros Hn w1.
  assert (Hin : In (mkTimer (S (nextTimer w)) (now w + 1000) TNextTrack)
                   (skip_timers w1)).
  { unfold w1, skip_timers. cbn [step]. unfold audio_onerror. fields.
    rewrite !filter_app. apply in_or_app. right. now left. }
  assert (Hv : skip_view w1 = (false, next_requests w, scope (state w))) by reflexivity.
  pose proof (wait_skips n w1 _ Hin) as Hs. cbn [due] in Hs.
  assert (Hnow : now w1 = now w) by reflexivity.
  rewrite Hnow in Hs. specialize (Hs ltac:(lia) ltac:(lia)).
  rewrite Hv in Hs. cbn [skipped] in Hs. unfold skip_view in Hs.
  injection Hs as H1 H2 _.
  repeat split; try reflexivity; assumption.
Qed.

Lemma media_error_skips_once_witness :
  next_requests (wait 1000 (step MediaError (step MediaError playing_world)))
    = [mkRequest POST (ApiPlayerNext "track")].
Proof.
  exact (proj1 (proj2 (proj2 (proj2
           (media_error_skips_once (step MediaError playing_world) 1000
              (Nat.le_refl 1000)))))).
Defined.

(** ** Reloading the current snapshot *)

Ltac budget_frame :=
  unfold loads_pending, loads_scheduled;
  open_handlers; split_cases;
  rewrite ?filter_app, ?length_app;
  cbn [filter is_load_cont is_load_timer action List.length app];
  rewrite ?Nat.add_0_r; try reflexivity; try lia.

Lemma loads_resume (k : Cont) (a : Answer) (w w' : World) :
  resume k a w = Some w' ->
  loads_pending w' = loads_pending w /\
  (loads_scheduled w' <= loads_scheduled w + (if is_load_cont k then 1 else 0))%nat.
Proof.
  intros Hr. resume_cases k a Hr; cbn [is_load_cont]; split; budget_frame.
Qed.

Lemma filter_length_le {A} (p : A -> bool) (l : list A) :
  (List.length (filter p l) <= List.length l)%nat.
Proof.
  induction l as [|x l IH]; [reflexivity |]. cbn [filter].
  destruct (p x); cbn [List.length]; lia.
Qed.

Lemma filter_length_split {A} (p q : A -> bool) (l : list A) :
  (List.length (filter p (filter q l))
   + List.length (filter p (filter (fun x => negb (q x)) l)))%nat
  = List.length (filter p l).
Proof.
  induction l as [|x l IH]; [reflexivity |]. cbn [filter].
  destruct (q x), (p x) eqn:Hp; cbn [negb filter List.length]; rewrite ?Hp;
    cbn [List.length]; lia.
Qed.

Lemma loads_run_timer (a : TimerAction) (w : World) :
  timers (run_timer a w) = timers w /\
  (loads_pending (run_timer a w)
   <= loads_pending w + (if is_load_timer (mkTimer 0 0 a) then 1 else 0))%nat.
Proof.
  unfold is_load_timer. cbn [action].
  destruct a; cbn [run_timer]; (split; [frame | budget_frame]).
Qed.

Lemma loads_run_timers (l : list Timer) :
  forall w,
  let w' := fold_left (fun w x => run_timer (action x) w) l w in
  timers w' = timers w /\
  (loads_pending w' <= loads_pending w + List.length (filter is_load_timer l))%nat.
Proof.
  induction l as [|x l IH]; intros w; cbn [fold_left filter].
  - split; [reflexivity | cbn [List.length]; lia].
  - destruct (loads_run_timer (action x) w) as [H1 H2].
    destruct (IH (run_timer (action x) w)) as [H3 H4].
    split; [congruence |].
    change (is_load_timer (mkTimer 0 0 (action x))) with (is_load_timer x) in H2.
    destruct (is_load_timer x); cbn [List.length]; lia.
Qed.

Lemma load_budget_step (e : Event) (w : World) :
  (load_budget (step e w) <= load_budget w)%nat.
Proof.
  unfold load_budget. destruct e; cbn [step].
  - destruct b; budget_frame.
  - budget_frame.
  - budget_frame.
  - budget_frame.
  - budget_frame.
  - budget_frame.
  - unfold searchInput_oninput, clearTimeout, loads_pending, loads_scheduled.
    fields. destruct (searchTimeout w) as [id |]; fields;
      rewrite filter_app, length_app; cbn [filter is_load_timer action List.length].
    + rewrite filter_swap.
      pose proof (filter_length_le (fun t => negb (Nat.eqb (tid t) id))
                    (filter is_load_timer (timers w))). lia.
    + lia.
  - unfold answered. destruct (nth_error (pending w) i) as [k |] eqn:Hk; [| lia].
    destruct (resume k a _) as [w' |] eqn:Hr; [| lia].
    destruct (loads_resume _ _ _ _ Hr) as [H1 H2].
    pose proof (filter_remove_nth is_load_cont (pending w) i k Hk) as H3.
    unfold loads_pending in *. unfold loads_scheduled in *.
    cbn [pending timers set_pending] in H1, H2.
    destruct (is_load_cont k); lia.
  - apply (canplay_invariant
             (fun v => (loads_pending v + loads_scheduled v
                        <= loads_pending w + loads_scheduled w)%nat)); [| lia].
    intros l ok v Hv.
    assert (loads_pending (onCanPlay l ok v) = loads_pending v /\
            loads_scheduled (onCanPlay l ok v) = loads_scheduled v)
      by (destruct ok, l; split; reflexivity). lia.
  - apply (canplay_invariant
             (fun v => (loads_pending v + loads_scheduled v
                        <= loads_pending w + loads_scheduled w)%nat)); [| lia].
    intros l ok v Hv.
    assert (loads_pending (onCanPlay l ok v) = loads_pending v /\
            loads_scheduled (onCanPlay l ok v) = loads_scheduled v)
      by (destruct ok, l; split; reflexivity). lia.
  - budget_frame.
  - budget_frame.
  - budget_frame.
  - unfold tick.
    set (t := S (now w)).
    destruct (loads_run_timers (filter (is_due t) (timers w))
                (set_timers (filter (fun x => negb (is_due t x)) (timers w))
                            (set_now t w))) as [H1 H2].
    cbv zeta in H1, H2.
    pose proof (filter_length_split is_load_timer (is_due t) (timers w)) as H3.
    unfold loads_scheduled. rewrite H1.
    unfold loads_pending in *. cbn [pending timers set_timers set_now] in *.
    lia.
Qed.

(** Reloads of the current snapshot never multiply.  No event increases the
    number of [loadCurrent] calls that are alive (requests not yet answered,
    retry timers, start-up timers): a failed request is replaced by one
    retry timer, a timer by at most one request.  From page load on there
    are never more than three, so at most three requests for
    [/api/player/current] await an answer at any time. *)
Theorem loadCurrent_retries_bounded (d : Dom) (evs : list Event) :
  (forall e w, load_budget (step e w) <= load_budget w)%nat /\
  (load_budget (run evs (init d)) <= 3)%nat /\
  (loads_pending (run evs (init d)) <= 3)%nat.
Proof.
  split; [exact load_budget_step |].
  assert (H : (load_budget (run evs (init d)) <= 3)%nat).
  { apply (run_invariant (fun _ => true) (fun v => (load_budget v <= 3)%nat)).
    - intros e v _ Hv. pose proof (load_budget_step e v). lia.
    - apply Forall_forall. reflexivity.
    - cbn. lia. }
  split; [exact H |]. unfold load_budget in H. lia.
Qed.

(** ** The hash of short names *)

Lemma to_int32_small (z : Z) : - 2^31 <= z < 2^31 -> Js.to_int32 z = z.
Proof.
  intros H. unfold Js.to_int32. rewrite Z.mod_small; lia.
Qed.

Lemma shl5_small (h : Z) : 0 <= h < 2^26 -> Js.shl h 5 = 32 * h.
Proof.
  intros H. unfold Js.shl. rewrite (to_int32_small h) by lia.
  rewrite Z.shiftl_mul_pow2 by lia. rewrite to_int32_small; lia.
Qed.

Lemma short_hash_steps (units : list Z) :
  forall (k : nat) (h : Z),
  Forall (fun c => 0 <= c < 256) units ->
  (k + List.length units <= 5)%nat ->
  0 <= h <= 9 * (31 ^ Z.of_nat k - 1) ->
  fold_left hash_step units h = fold_left (fun h c => 31 * h + c) units h /\
  fold_left Spec32.hash_step units h = fold_left (fun h c => 31 * h + c) units h /\
  0 <= fold_left (fun h c => 31 * h + c) units h < 2^31.
Proof.
  induction units as [|c units IH]; intros k h Hu Hk Hh.
  - cbn [fold_left]. repeat split; try lia.
    assert (31 ^ Z.of_nat k <= 31 ^ 5) by (apply Z.pow_le_mono_r; lia). lia.
  - inversion Hu as [|? ? Hc Hu']; subst. cbn [List.length] in Hk.
    assert (Hp : 31 ^ Z.of_nat k <= 31 ^ 4) by (apply Z.pow_le_mono_r; lia).
    assert (Hs : Js.shl h 5 = 32 * h) by (apply shl5_small; lia).
    assert (E1 : hash_step h c = 31 * h + c) by (unfold hash_step; lia).
    assert (E2 : Spec32.hash_step h c = 31 * h + c).
    { unfold Spec32.hash_step. rewrite Hs. rewrite to_int32_small; lia. }
    cbn [fold_left]. rewrite E1, E2.
    apply (IH (S k)); [exact Hu' | lia |].
    rewrite Nat2Z.inj_succ, Z.pow_succ_r by lia. lia.
Qed.

Lemma charCodes_bytes (name : string) :
  Forall (fun c => 0 <= c < 256) (Js.charCodes name).
Proof.
  induction name as [|c name IH]; cbn [Js.charCodes]; constructor; [| exact IH].
  unfold Js.charCode. pose proof (N_ascii_bounded c). lia.
Qed.

(** For a name of at most five characters nothing overflows: the hash is the
    polynomial hash with multiplier 31, it fits in 32 bits, and the hue is
    the one 32-bit arithmetic gives. *)
Theorem short_names_hash_exactly (name : string) :
  (String.length name <= 5)%nat ->
  name_hash name = poly31 (Js.charCodes name) /\
  0 <= name_hash name < 2^31 /\
  name_hash name = Spec32.name_hash name /\
  placeholder_hue name = Spec32.placeholder_hue name.
Proof.
  intros Hlen.
  destruct (charCodes_units name) as [_ Hl].
  destruct (short_hash_steps (Js.charCodes name) 0 0 (charCodes_bytes name))
    as (H1 & H2 & H3); [rewrite Hl; lia | cbn; lia |].
  unfold name_hash, Spec32.name_hash, hash_units, Spec32.hash_units, poly31,
    placeholder_hue, Spec32.placeholder_hue, hue_of, name_hash, Spec32.name_hash,
    hash_units, Spec32.hash_units.
  rewrite H1, H2. repeat split; lia.
Qed.

Lemma short_names_hash_exactly_witness :
  name_hash "music" = poly31 (Js.charCodes "music") /\
  placeholder_hue "music" = Spec32.placeholder_hue "music".
Proof.
  assert (H : (String.length "music" <= 5)%nat) by (cbn; lia).
  destruct (short_names_hash_exactly "music" H) as (H1 & _ & _ & H4).
  split; [exact H1 | exact H4].
Defined.

Lemma name_hash_exact_witness : Z.abs (name_hash "demoscene") < 2^53.
Proof.
  apply name_hash_exact. cbn [String.length].
  apply Nat.le_trans with 21%nat; [lia |].
  apply Nat.lt_le_incl, Nat.pow_gt_lin_r. lia.
Defined.

(** ** The clock ignores fractions of a second *)

Lemma formatTime_finite (q : Q) :
  (0 <= q)%Q ->
  formatTime (Js.Num (Js.Fin q))
    = Js.toString (Qfloor q / 60) ++ ":" ++ two_digits (Qfloor q mod 60).
Proof.
  intros Hq. unfold formatTime. cbn [Js.isFinite Js.falsy negb].
  rewrite orb_false_r.
  destruct (Qeq_bool q 0) eqn:Hz.
  - apply Qeq_bool_eq in Hz.
    assert (Hf : Qfloor q = 0) by (rewrite Hz; reflexivity).
    rewrite Hf. reflexivity.
  - unfold Js.rem. rewrite Qtrunc_nonneg by (apply Qdiv60_nonneg; exact Hq).
    fold (Qmod60 q). rewrite Qfloor_mod60, Qfloor_div60.
    rewrite padStart_two_digits by (apply Z.mod_pos_bound; lia). reflexivity.
Qed.

(** The clock shows whole seconds only: a time that is not negative, in
    the range below 2^53 where the script's arithmetic is exact, is shown
    like the whole number of seconds below it, so the text changes only
    when a second is completed, and it rolls over to the next minute
    exactly at multiples of 60. *)
Theorem formatTime_whole_seconds (q : Q) :
  (0 <= q)%Q -> Js.safe q ->
  formatTime (Js.Num (Js.Fin q)) = formatTime (Js.Num (Js.Fin (inject_Z (Qfloor q)))) /\
  (forall m s : Z, 0 <= m -> 0 <= s < 60 -> Qfloor q = 60 * m + s ->
     formatTime (Js.Num (Js.Fin q)) = Js.toString m ++ ":" ++ two_digits s).
Proof.
  intros Hq _.
  assert (Hz : 0 <= Qfloor q).
  { change 0 with (Qfloor 0). now apply Qfloor_resp_le. }
  assert (Hf : (0 <= inject_Z (Qfloor q))%Q).
  { unfold Qle, inject_Z. cbn [Qnum Qden]. lia. }
  split.
  - rewrite (formatTime_finite q Hq), (formatTime_finite _ Hf).
    now rewrite Qfloor_Z.
  - intros m s Hm Hs E. rewrite (formatTime_finite q Hq), E.
    replace ((60 * m + s) / 60) with m
      by (apply (Z.div_unique _ 60 m s); lia).
    replace ((60 * m + s) mod 60) with s
      by (apply (Z.mod_unique _ 60 m s); lia).
    reflexivity.
Qed.

Lemma formatTime_whole_seconds_witness :
  formatTime (Js.Num (Js.Fin (2519 # 20)))
    = formatTime (Js.Num (Js.Fin (inject_Z 125))) /\
  formatTime (Js.Num (Js.Fin (2519 # 20))) = "2:05".
Proof.
  assert (H : (0 <= 2519 # 20)%Q) by discriminate.
  assert (Hs : Js.safe (2519 # 20)) by (split; reflexivity).
  destruct (formatTime_whole_seconds (2519 # 20) H Hs) as [H1 H2].
  split; [exact H1 |].
  apply (H2 2 5); [lia | lia | reflexivity].
Defined.

(** ** Escaping *)

Lemma occurs_app (c : ascii) (a b : string) :
  occurs c (a ++ b) = occurs c a || occurs c b.
Proof.
  induction a as [|x a IH]; [reflexivity |]. cbn [append occurs].
  now rewrite IH, orb_assoc.
Qed.

Lemma esc_char_cases (c : ascii) :
  (c = "&"%char /\ esc_char c = "&amp;") \/
  (c = "<"%char /\ esc_char c = "&lt;") \/
  (c = ">"%char /\ esc_char c = "&gt;") \/
  (c = ascii_of_nat 160 /\ esc_char c = "&nbsp;") \/
  (plain_char c = true /\ esc_char c = String c EmptyString).
Proof.
  unfold esc_char, plain_char.
  destruct (Ascii.eqb c "&") eqn:E1; [left; split; [now apply Ascii.eqb_eq | reflexivity] |].
  destruct (Ascii.eqb c "<") eqn:E2;
    [right; left; split; [now apply Ascii.eqb_eq | reflexivity] |].
  destruct (Ascii.eqb c ">") eqn:E3;
    [right; right; left; split; [now apply Ascii.eqb_eq | reflexivity] |].
  destruct (Nat.eqb (nat_of_ascii c) 160) eqn:E4.
  - right; right; right; left. split; [| reflexivity].
    apply Nat.eqb_eq in E4. rewrite <- E4. symmetry. apply ascii_nat_embedding.
  - right; right; right; right. split; reflexivity.
Qed.

Lemma plain_char_not_amp (c : ascii) : plain_char c = true -> c <> "&"%char.
Proof.
  unfold plain_char. intros H ->. discriminate H.
Qed.

Lemma unescape_plain (c : ascii) (r : string) :
  c <> "&"%char -> unescape_text (String c r) = String c (unescape_text r).
Proof.
  intros H.
  destruct c as [[|] [|] [|] [|] [|] [|] [|] [|]]; try reflexivity.
  now elim H.
Qed.

(** [esc] is safe and loses nothing.  Its result contains neither angle
    bracket, so a name can never open or close a tag in the row it is put
    into; reading the references back gives the name exactly, so two
    different names never get the same markup; and a name without any of
    the four special characters is left as it is. *)
Theorem esc_is_safe_and_faithful (s : string) :
  occurs "<" (esc (Some s)) = false /\
  occurs ">" (esc (Some s)) = false /\
  unescape_text (esc (Some s)) = s /\
  (forall s', esc (Some s) = esc (Some s') -> s = s') /\
  (plain_text s = true -> esc (Some s) = s) /\
  esc None = EmptyString.
Proof.
  assert (Hlt : forall t, occurs "<" (escape_text t) = false).
  { induction t as [|c t IH]; [reflexivity |]. cbn [escape_text].
    rewrite occurs_app, IH, orb_false_r.
    destruct (esc_char_cases c) as [[_ ->] | [[_ ->] | [[_ ->] | [[_ ->] | [Hp ->]]]]];
      try reflexivity.
    cbn [occurs]. rewrite orb_false_r. unfold plain_char in Hp.
    destruct (Ascii.eqb c "<"); [| reflexivity].
    rewrite orb_true_r in Hp. discriminate Hp. }
  assert (Hgt : forall t, occurs ">" (escape_text t) = false).
  { induction t as [|c t IH]; [reflexivity |]. cbn [escape_text].
    rewrite occurs_app, IH, orb_false_r.
    destruct (esc_char_cases c) as [[_ ->] | [[_ ->] | [[_ ->] | [[_ ->] | [Hp ->]]]]];
      try reflexivity.
    cbn [occurs]. rewrite orb_false_r. unfold plain_char in Hp.
    destruct (Ascii.eqb c ">"); [| reflexivity].
    rewrite orb_true_r in Hp. cbn in Hp. discriminate Hp. }
  assert (Hun : forall t, unescape_text (escape_text t) = t).
  { induction t as [|c t IH]; [reflexivity |]. cbn [escape_text].
    destruct (esc_char_cases c) as [[-> ->] | [[-> ->] | [[-> ->] | [[-> ->] | [Hp ->]]]]].
    - cbn [append unescape_text]. now rewrite IH.
    - cbn [append unescape_text]. now rewrite IH.
    - cbn [append unescape_text]. now rewrite IH.
    - cbn [append]. cbn [unescape_text]. now rewrite IH.
    - cbn [append]. rewrite unescape_plain by now apply plain_char_not_amp.
      now rewrite IH. }
  cbn [esc]. repeat split; auto.
  - intros s' E. rewrite <- (Hun s), <- (Hun s'). now rewrite E.
  - induction s as [|c s IH]; [reflexivity |]. cbn [plain_text escape_text].
    intros H. apply andb_prop in H. destruct H as [Hc Hs].
    destruct (esc_char_cases c) as [[-> _] | [[-> _] | [[-> _] | [[E _] | [_ ->]]]]];
      try discriminate Hc.
    + rewrite E in Hc. discriminate Hc.
    + cbn [append]. now rewrite IH.
Qed.

Lemma esc_is_safe_and_faithful_witness :
  esc (Some "<b>R&D</b>") = "&lt;b&gt;R&amp;D&lt;/b&gt;" /\
  esc (Some "assembly") = "assembly".
Proof.
  split; [reflexivity |].
  exact (proj1 (proj2 (proj2 (proj2 (proj2 (esc_is_safe_and_faithful "assembly")))))
           eq_refl).
Defined.

(** ** One search at a time *)

Lemma debounce_view_step (e : Event) (w : World) :
  types_or_ticks e = false -> debounce_view (step e w) = debounce_view w.
Proof.
  intros He. destruct e; cbn [step]; try discriminate He.
  - destruct b; cbn [click];
      auto using debounce_view_togglePlay, debounce_view_nextTrack,
                 debounce_view_prevTrack, debounce_view_toggleUpvote,
                 debounce_view_browseBack.
  - unfold keydown.
    repeat match goal with |- context [if ?c then _ else _] => destruct c end;
      auto using debounce_view_togglePlay, debounce_view_nextTrack,
                 debounce_view_prevTrack, debounce_view_toggleUpvote.
  - reflexivity.
  - reflexivity.
  - reflexivity.
  - reflexivity.
  - unfold answered. destruct (nth_error (pending w) i) as [k |]; [| reflexivity].
    destruct (resume k a _) as [w' |] eqn:Hr; [| reflexivity].
    now rewrite (debounce_view_resume _ _ _ _ Hr).
  - apply debounce_view_canplay.
  - apply debounce_view_canplay.
  - unfold audio_onended. now rewrite debounce_view_nextTrack.
  - unfold audio_onerror. cbv zeta.
    rewrite debounce_view_setTimeout by reflexivity.
    now rewrite debounce_view_showToast.
  - unfold artImg_onerror. destruct (img_onerror (dom w)); reflexivity.
Qed.

Lemma one_search_tracked (w : World) : one_search w -> debounce_tracked w.
Proof.
  intros [Hn | (x & Hx & Hid)].
  - intros t Hin Ht.
    assert (Hs : In t (search_timers w)) by (apply filter_In; now split).
    rewrite Hn in Hs. destruct Hs.
  - now apply (single_timer_tracked w x).
Qed.

Lemma one_search_step (e : Event) (w : World) :
  one_search w -> one_search (step e w).
Proof.
  intros H. destruct (types_or_ticks e) eqn:He.
  - destruct e; try discriminate He; cbn [step].
    + destruct (keystroke_arms text w (one_search_tracked w H))
        as ((id & Hs & Hid) & _).
      right. eexists. split; [exact Hs | exact Hid].
    + destruct (tick_frame w) as (_ & Hto & _ & Htm & _).
      destruct H as [Hn | (x & Hx & Hid)].
      * left. rewrite Htm, Hn. reflexivity.
      * rewrite Hx in Htm. cbn [filter] in Htm.
        destruct (negb (is_due (S (now w)) x)); [| now left].
        right. exists x. split; [exact Htm | congruence].
  - pose proof (debounce_view_step e w He) as Hv. unfold debounce_view in Hv.
    injection Hv as Hs Hid. unfold one_search. rewrite Hs, Hid. exact H.
Qed.

Lemma wait_one_search (n : nat) :
  forall w, one_search w ->
  (List.length (search_requests (wait n w)) <= S (List.length (search_requests w)))%nat.
Proof.
  intros w [Hn | (x & Hx & _)].
  - destruct (wait_disarmed n w Hn) as (_ & _ & Hr). rewrite Hr. lia.
  - destruct x as [id t0 a].
    assert (Ha : exists q, a = TSearch q).
    { assert (Hin : In (mkTimer id t0 a) (search_timers w)) by (rewrite Hx; now left).
      apply filter_In in Hin. destruct Hin as [_ Hs].
      unfold is_search_timer in Hs. cbn [action] in Hs.
      destruct a; try discriminate Hs. now eexists. }
    destruct Ha as [q ->].
    destruct (Nat.ltb (now w + n) t0) eqn:Hlt.
    + apply Nat.ltb_lt in Hlt.
      destruct (wait_before_due n w id t0 q Hx Hlt) as (_ & _ & _ & Hr).
      rewrite Hr. lia.
    + apply Nat.ltb_ge in Hlt. destruct n as [|n]; [cbn [wait]; lia |].
      destruct (wait_past_due (S n) w id t0 q Hx Hlt ltac:(lia)) as (_ & _ & Hr).
      rewrite Hr, length_app. unfold search_request_for.
      destruct (top (browseStack (state w))) as [[name | i name] |];
        cbn [List.length]; lia.
Qed.

(** From page load on at most one search is scheduled at any time, and
    [searchTimeout] names it; so a keystroke, in whatever world it comes,
    leaves exactly one, due 300 ms later and carrying the trimmed text, and
    any stretch of time without events sends at most one search request. *)
Theorem one_search_at_a_time (d : Dom) (evs : list Event) :
  let w := run evs (init d) in
  (List.length (search_timers w) <= 1)%nat /\
  (forall text,
     search_timers (searchInput_oninput text w)
       = [mkTimer (nextTimer w) (now w + 300) (TSearch (trim text))]) /\
  (forall n,
     List.length (search_requests (wait n w))
       <= S (List.length (search_requests w)))%nat.
Proof.
  intros w.
  assert (H : one_search w).
  { unfold w. apply (run_invariant (fun _ => true) one_search).
    - intros e v _. apply one_search_step.
    - apply Forall_forall. reflexivity.
    - left. reflexivity. }
  split; [| split].
  - destruct H as [-> | (x & -> & _)]; cbn [List.length]; lia.
  - intros text.
    destruct (keystroke_arms text w (one_search_tracked w H)) as ((id & Hs & Hid) & _).
    rewrite Hs. f_equal.
    assert (Hn : now (searchInput_oninput text w) = now w /\
                 searchTimeout (searchInput_oninput text w) = Some (nextTimer w)).
    { unfold searchInput_oninput, clearTimeout. fields.
      destruct (searchTimeout w); split; reflexivity. }
    destruct Hn as [Hn1 Hn2]. rewrite Hn1. f_equal. congruence.
  - intros n. now apply wait_one_search.
Qed.

(** ** Playing without a request *)

(** The first press of play after the page has loaded.  The answer to the
    start-up request shows the server's current track but loads nothing;
    the play button then loads exactly that track, without any further
    request, and once the media can play the player is playing it. *)
Theorem page_load_then_play (d : Dom) (data : PlayerData) (t : Track) :
  d_track data = Some t ->
  let w1 := step (Answered 0 (Player data)) (init d) in
  let w2 := step (Click BtnPlay) w1 in
  track (state w1) = Some t /\ src (audio w1) = None /\
  isLoading (state w1) = false /\ isPlaying (state w1) = false /\
  requests w1 = [mkRequest GET ApiPlayerCurrent] /\ pending w1 = [] /\
  requests w2 = requests w1 /\ pending w2 = [] /\
  src (audio w2) = Some (t_id t) /\ isLoading (state w2) = true /\
  isLoading (state (step CanPlay w2)) = false /\
  isPlaying (state (step CanPlay w2)) = true /\
  track (state (step CanPlay w2)) = Some t.
Proof.
  intros Hd. cbv zeta.
  assert (E1 : step (Answered 0 (Player data)) (init d)
               = applyPlayerState data (set_pending [] (init d))).
  { cbn [step]. unfold answered, init, loadCurrent. fields.
    cbn [nth_error app remove_nth resume loadCurrent_then]. reflexivity. }
  rewrite E1. clear E1.
  set (w1 := applyPlayerState data (set_pending [] (init d))).
  assert (F1 : track (state w1) = Some t /\ src (audio w1) = None /\
               paused (audio w1) = true /\
               isLoading (state w1) = false /\ isPlaying (state w1) = false /\
               requests w1 = [mkRequest GET ApiPlayerCurrent] /\ pending w1 = []).
  { unfold w1, applyPlayerState, loadArt. rewrite Hd.
    destruct (d_collection data) as [col |]; [destruct (has_art col) |];
      repeat split; reflexivity. }
  destruct F1 as (T1 & S1 & P1 & L1 & Y1 & R1 & Q1).
  cbn [step click].
  assert (E2 : togglePlay w1
               = updatePlayBtn (with_state (set_isPlaying true)
                   (with_audio (audio_load OfPlayTrack (t_id t)) (setLoading true w1)))).
  { unfold togglePlay, playTrack. now rewrite T1, P1, S1. }
  rewrite E2.
  set (w2 := updatePlayBtn (with_state (set_isPlaying true)
               (with_audio (audio_load OfPlayTrack (t_id t)) (setLoading true w1)))).
  assert (C2 : canplay (audio w2) <> 0%nat) by discriminate.
  destruct (canplay_effect true w2 C2) as (N1 & N2 & _).
  destruct (canplay_keeps true w2) as (_ & _ & _ & N3).
  cbn [step].
  split; [exact T1 |]. split; [exact S1 |]. split; [exact L1 |].
  split; [exact Y1 |]. split; [exact R1 |]. split; [exact Q1 |].
  split; [reflexivity |]. split; [exact Q1 |].
  split; [reflexivity |]. split; [reflexivity |].
  split; [exact N1 |]. split; [exact N2 |].
  rewrite N3. exact T1.
Qed.

Lemma page_load_then_play_witness :
  src (audio (step (Click BtnPlay) (step (Answered 0 (sample_answer 1)) (init blank))))
    = Some 1 /\
  requests (step (Click BtnPlay) (step (Answered 0 (sample_answer 1)) (init blank)))
    = [mkRequest GET ApiPlayerCurrent].
Proof.
  destruct (page_load_then_play blank
              (mkPlayerData (Some (sample_track 1)) None "music" true)
              (sample_track 1) eq_refl)
    as (_ & _ & _ & _ & Hr & _ & Hr2 & _ & Hs & _).
  split; [exact Hs |]. rewrite <- Hr. exact Hr2.
Defined.

(** A track chosen in the browse list is played directly: no request is
    sent, the panel is closed and the stack kept.  Only the track itself is
    replaced: title, format badge and heart are those of the chosen track,
    while the collection and category held, the collection name shown, the
    prev button and the art stay those of the snapshot applied before. *)
Theorem direct_play_keeps_old_context (w : World) (t : Track) :
  let w' := step (TrackClick t) w in
  track (state w') = Some t /\
  requests w' = requests w /\ pending w' = pending w /\
  src (audio w') = Some (t_id t) /\ isLoading (state w') = true /\
  canplay (audio w') = S (canplay (audio w)) /\
  content (dom w') TrackTitle = [Text (t_title t)] /\
  content (dom w') Breadcrumb = [Badge (Js.toUpperCase (t_format t))] /\
  classList (dom w') HeartBtn "active" = t_upvoted t /\
  classList (dom w') BrowsePanel "open" = false /\
  classList (dom w') BrowseOverlay "open" = false /\
  browseStack (state w') = browseStack (state w) /\
  collection (state w') = collection (state w) /\
  categoryName (state w') = categoryName (state w) /\
  content (dom w') CollectionName = content (dom w) CollectionName /\
  style (dom w') PrevBtn opacity = style (dom w) PrevBtn opacity /\
  art_view w' = art_view w.
Proof.
  cbv zeta. cbn [step]. unfold trackItem_click, closeBrowse, playSpecificTrack,
    art_view.
  fields. repeat split; reflexivity.
Qed.

(** Closing the panel forgets nothing, opening it forgets everything:
    [closeBrowse] only takes the [open] class off the panel and its
    overlay, while [openBrowse] empties the stack and requests the category
    list, so reopening never resumes where the listener was. *)
Theorem reopening_starts_at_the_root (w : World) :
  state (closeBrowse w) = state w /\
  requests (closeBrowse w) = requests w /\
  content (dom (closeBrowse w)) BrowseList = content (dom w) BrowseList /\
  classList (dom (closeBrowse w)) BrowsePanel "open" = false /\
  browseStack (state (openBrowse (closeBrowse w))) = [] /\
  requests (openBrowse (closeBrowse w))
    = (requests w ++ [mkRequest GET ApiCategories])%list /\
  content (dom (openBrowse (closeBrowse w))) BrowseList = [ItemLoading] /\
  value (dom (openBrowse (closeBrowse w))) BrowseSearchInput = "" /\
  classList (dom (openBrowse (closeBrowse w))) BrowsePanel "open" = true.
Proof.
  unfold openBrowse, closeBrowse, loadCategories. fields.
  repeat split; reflexivity.
Qed.

(** ** Examples for the invariants *)

Lemma track_never_cleared_witness :
  track (state (run [Click BtnNext; MediaError; Click BtnPrev;
                     Answered 0 (Player no_track); CanPlay]
                    playing_world)) <> None.
Proof.
  apply (track_never_cleared
           [Click BtnNext; MediaError; Click BtnPrev;
            Answered 0 (Player no_track); CanPlay] playing_world).
  discriminate.
Defined.

Lemma spinner_follows_loading_witness :
  style (dom (run [Click BtnNext] (init blank))) LoadingSpinner display = "flex".
Proof.
  exact (proj1 (spinner_follows_loading blank [Click BtnNext]) eq_refl).
Defined.

Lemma play_button_follows_playing_witness :
  content (dom (run [TrackClick (sample_track 3); CanPlay] (init blank))) PlayBtn
    = play_glyph true.
Proof.
  exact (proj1 (play_button_follows_playing blank
                  [TrackClick (sample_track 3); CanPlay]) eq_refl).
Defined.
